(** * The aggregate service-registry controller
    (pilot/pkg/serviceregistry/aggregate/controller.go)

    A shallow embedding of the controller that fans discovery queries out
    over its member registries and merges what they report.  Go pointers
    and maps are references into an explicit object store; a write to a nil
    map is a run-time panic, which the embedding keeps as an outcome of its
    own. *)

From Stdlib Require Import ZArith Lia.
From stdpp Require Import base option list gmap strings.


(** ** Errors *)

(** Go's [error] values.  [multierror.Append] (hashicorp/go-multierror)
    collects errors into one [*multierror.Error]; a nil [error] is [None]. *)
Inductive error :=
| errorString (msg : string)
| multierrorError (Errors : list string).

Module multierror.

(** The errors a value stands for: itself, or the ones it has collected. *)
Definition flatten (e : error) : list string :=
  match e with
  | errorString msg => [msg]
  | multierrorError es => es
  end.

(** [Append(err, e)]: a [*multierror.Error] first argument is extended, any
    other non-nil one becomes the first element; an appended
    [*multierror.Error] is flattened.  The result is never nil. *)
Definition Append (err : option error) (e : error) : option error :=
  Some (multierrorError (from_option flatten [] err ++ flatten e)).

End multierror.

(** ** The object store *)

Abbreviation loc := nat.

Module model.

(** Modelled from the spec: the [Service] record of pilot/pkg/model, which
    the controller only uses: a hostname, a primary address, and three
    cluster-keyed maps.  A Go map is a reference: [None] is the nil map,
    [Some l] the map object at [l]. *)
Record ServiceAttributes := {
  ClusterExternalAddresses : option loc;   (* map[string][]string *)
  ClusterExternalPorts : option loc        (* map[string]map[uint32]uint32 *)
}.

Record Service := {
  Hostname : string;
  Address : string;
  ClusterVIPs : option loc;                (* map[string]string *)
  Attributes : ServiceAttributes
}.

End model.
Export model.

(** What a location of the store holds.  The values of the two external
    maps are themselves references (a slice, an inner map), nil when
    [None]. *)
Inductive Object :=
| ObjService (s : Service)
| ObjVIPs (m : gmap string string)
| ObjExternalAddresses (m : gmap string (option loc))
| ObjExternalPorts (m : gmap string (option loc))
| ObjStrings (l : list string)
| ObjPortMap (m : gmap N N).

Abbreviation Heap := (list Object).

(** ** Computations over the store that may panic *)

Inductive Fault :=
| NilMapWrite      (* "assignment to entry in nil map" *)
| InvalidRef.      (* a reference that is not in the store: no Go program has one *)

Inductive Outcome (A : Type) :=
| Done (a : A) (h : Heap)
| Panics (f : Fault).
Arguments Done {A} a h.
Arguments Panics {A} f.

Definition M (A : Type) := Heap → Outcome A.

#[global] Instance M_ret : MRet M := λ A a h, Done a h.
#[global] Instance M_bind : MBind M := λ A B f m h,
  match m h with
  | Done a h' => f a h'
  | Panics e => Panics e
  end.

Definition panic {A} (f : Fault) : M A := λ _, Panics f.

Definition alloc (o : Object) : M loc := λ h, Done (length h) (h ++ [o]).

Definition load (p : loc) : M Object := λ h,
  match h !! p with
  | Some o => Done o h
  | None => Panics InvalidRef
  end.

Definition store (p : loc) (o : Object) : M unit := λ h,
  match h !! p with
  | Some _ => Done tt (<[p:=o]> h)
  | None => Panics InvalidRef
  end.

Definition loadService (p : loc) : M Service :=
  o ← load p; match o with ObjService s => mret s | _ => panic InvalidRef end.
Definition loadVIPs (p : loc) : M (gmap string string) :=
  o ← load p; match o with ObjVIPs m => mret m | _ => panic InvalidRef end.
Definition loadExternalAddresses (p : loc) : M (gmap string (option loc)) :=
  o ← load p; match o with ObjExternalAddresses m => mret m | _ => panic InvalidRef end.
Definition loadExternalPorts (p : loc) : M (gmap string (option loc)) :=
  o ← load p; match o with ObjExternalPorts m => mret m | _ => panic InvalidRef end.
Definition loadStrings (p : loc) : M (list string) :=
  o ← load p; match o with ObjStrings l => mret l | _ => panic InvalidRef end.
Definition loadPortMap (p : loc) : M (gmap N N) :=
  o ← load p; match o with ObjPortMap m => mret m | _ => panic InvalidRef end.

(** [for _, x := range l { a = f(a, x) }] *)
Fixpoint foldM {A B} (f : A → B → M A) (a : A) (l : list B) : M A :=
  match l with
  | [] => mret a
  | x :: l' => a' ← f a x; foldM f a' l'
  end.

(** Map assignments [m[k] = v]: a panic when [m] is nil. *)
Definition assignVIP (m : option loc) (k v : string) : M unit :=
  match m with
  | None => panic NilMapWrite
  | Some l => vm ← loadVIPs l; store l (ObjVIPs (<[k:=v]> vm))
  end.
Definition assignExternalAddresses (m : option loc) (k : string) (v : option loc) : M unit :=
  match m with
  | None => panic NilMapWrite
  | Some l => am ← loadExternalAddresses l; store l (ObjExternalAddresses (<[k:=v]> am))
  end.
Definition assignExternalPorts (m : option loc) (k : string) (v : option loc) : M unit :=
  match m with
  | None => panic NilMapWrite
  | Some l => pm ← loadExternalPorts l; store l (ObjExternalPorts (<[k:=v]> pm))
  end.

(** Map reads [m[k]] of a map whose values are references: the zero value
    (nil) for a missing key. *)
Definition indexRef (m : gmap string (option loc)) (k : string) : option loc :=
  default None (m !! k).

Module copy.

(** Modelled from the spec: [Service.DeepCopy] of pilot/pkg/model, "a
    private deep copy — no aliasing with any backend's internal
    representation".  Every object reachable from the service is copied
    into a new one; a nil map or slice stays nil. *)
Definition copyStrings (a : option loc) : M (option loc) :=
  match a with
  | None => mret None
  | Some l => xs ← loadStrings l; l' ← alloc (ObjStrings xs); mret (Some l')
  end.

Definition copyPortMap (a : option loc) : M (option loc) :=
  match a with
  | None => mret None
  | Some l => pm ← loadPortMap l; l' ← alloc (ObjPortMap pm); mret (Some l')
  end.

Fixpoint copyEntries (cp : option loc → M (option loc))
    (kvs : list (string * option loc)) : M (list (string * option loc)) :=
  match kvs with
  | [] => mret []
  | (k, v) :: kvs' =>
      v' ← cp v; rest ← copyEntries cp kvs'; mret ((k, v') :: rest)
  end.

Definition copyVIPs (m : option loc) : M (option loc) :=
  match m with
  | None => mret None
  | Some l => vm ← loadVIPs l; l' ← alloc (ObjVIPs vm); mret (Some l')
  end.

Definition copyExternalAddresses (m : option loc) : M (option loc) :=
  match m with
  | None => mret None
  | Some l =>
      am ← loadExternalAddresses l;
      kvs ← copyEntries copyStrings (map_to_list am);
      l' ← alloc (ObjExternalAddresses (list_to_map kvs));
      mret (Some l')
  end.

Definition copyExternalPorts (m : option loc) : M (option loc) :=
  match m with
  | None => mret None
  | Some l =>
      pm ← loadExternalPorts l;
      kvs ← copyEntries copyPortMap (map_to_list pm);
      l' ← alloc (ObjExternalPorts (list_to_map kvs));
      mret (Some l')
  end.

Definition DeepCopy (p : loc) : M loc :=
  s ← loadService p;
  vips ← copyVIPs (ClusterVIPs s);
  addrs ← copyExternalAddresses (ClusterExternalAddresses (Attributes s));
  ports ← copyExternalPorts (ClusterExternalPorts (Attributes s));
  alloc (ObjService {|
    Hostname := Hostname s;
    Address := Address s;
    ClusterVIPs := vips;
    Attributes := {| ClusterExternalAddresses := addrs;
                     ClusterExternalPorts := ports |} |}).

End copy.
Export copy.

(** ** Member registries *)

Module Locality.
Record t := { Label : string; ClusterID : string }.
End Locality.

Module IstioEndpoint.
Record t := { Address : string; Locality : Locality.t }.
End IstioEndpoint.

Module ServiceInstance.
(** Modelled from the spec: a [model.ServiceInstance], an endpoint of a
    service with its locality. *)
Record t := { Service : loc; Endpoint : IstioEndpoint.t }.
End ServiceInstance.

Module NodeMetadata.
Record t := { ClusterID : string }.
End NodeMetadata.

Module Proxy.
(** Modelled from the spec: a [model.Proxy]; [Metadata] is a pointer and may
    be nil. *)
Record t := { ID : string; Metadata : option NodeMetadata.t; ClusterID : string }.
End Proxy.

(** A handler is opaque to the controller; it is passed on by name. *)
Definition Handler := string.
Definition Labels := list (list (string * string)).

Module serviceregistry.

(** Modelled from the spec: the provider id of the default registry, "the
    default ambiguous cluster identifier". *)
Definition Kubernetes : string := "Kubernetes".

(** [serviceregistry.Instance], the contract of a member registry: its
    identity and what each of its operations answers. *)
Record Instance := {
  Cluster : string;
  Provider : string;
  Services : list loc * option error;
  GetService : string → option loc * option error;
  InstancesByPort : loc → Z → Labels → list ServiceInstance.t * option error;
  GetProxyServiceInstances : Proxy.t → list ServiceInstance.t * option error;
  AppendServiceHandler : Handler → option error;
  AppendInstanceHandler : Handler → option error
}.

End serviceregistry.

(** ** The lock of the registry set *)

Module sync.

(** Go's [sync.RWMutex], as the goroutine that runs a method finds it:
    whether a writer holds it, and how many readers do.  The zero value is
    the free lock.  The lock is not reentrant: [Lock] is granted only when
    nobody holds the lock and [RLock] only when no writer does, whoever the
    holder is.  A call that is not granted ([None]) waits until the holder
    releases the lock; a goroutine that waits for a lock it holds itself
    waits for ever. *)
Record RWMutex := { writer : bool; readers : nat }.

Definition zero : RWMutex := {| writer := false; readers := 0 |}.

Definition Lock (rw : RWMutex) : option RWMutex :=
  if writer rw || bool_decide (0 < readers rw) then None
  else Some {| writer := true; readers := 0 |}.

Definition Unlock (rw : RWMutex) : RWMutex :=
  {| writer := false; readers := readers rw |}.

Definition RLock (rw : RWMutex) : option RWMutex :=
  if writer rw then None
  else Some {| writer := false; readers := S (readers rw) |}.

Definition RUnlock (rw : RWMutex) : RWMutex :=
  {| writer := writer rw; readers := pred (readers rw) |}.

End sync.

(** ** The controller *)

Module aggregate.
Import serviceregistry.

Record Controller := {
  numK8SRegistries : Z;
  registries : list Instance
}.

Definition NewController : Controller :=
  {| numK8SRegistries := 0%Z; registries := [] |}.

(** Lines 107-112, for the methods that take no lock of their own: with no
    writer on [storeLock] the read lock is granted, the call is the read of
    the field, and the lock is left as it was. *)
Definition GetRegistries (c : Controller) : list Instance := registries c.

(** *** The registry set *)

(** How a call of a method that takes [storeLock] ends for the goroutine
    that makes it: it returns, or it waits on the lock.  Either way the
    controller and the lock are in the state the call has brought them
    to. *)
Inductive Call (A : Type) :=
| Returns (a : A) (c : Controller) (storeLock : sync.RWMutex)
| Waits (c : Controller) (storeLock : sync.RWMutex).
Arguments Returns {A} a c storeLock.
Arguments Waits {A} c storeLock.

(** Lines 107-112 with the lock as the caller has left it: [RLock], the
    read, the deferred [RUnlock]. *)
Definition GetRegistriesUnder (c : Controller) (storeLock : sync.RWMutex)
    : Call (list Instance) :=
  match sync.RLock storeLock with
  | None => Waits c storeLock
  | Some shared => Returns (registries c) c (sync.RUnlock shared)
  end.

(** Lines 64-71 and 94-101: the pass over the members that counts those
    with a cluster id. *)
Fixpoint countK8SClusters (rs : list Instance) (numK8SClusters : Z) : Z :=
  match rs with
  | [] => numK8SClusters
  | r :: rs' =>
      countK8SClusters rs'
        (if decide (Cluster r ≠ "") then (numK8SClusters + 1)%Z else numK8SClusters)
  end.

(** The assignments [c.registries = rs] and [c.numK8SRegistries = n]. *)
Definition setRegistries (rs : list Instance) (c : Controller) : Controller :=
  {| numK8SRegistries := numK8SRegistries c; registries := rs |}.
Definition setNumK8SRegistries (n : Z) (c : Controller) : Controller :=
  {| numK8SRegistries := n; registries := registries c |}.

(** Lines 56-73.  The members are ranged over through [GetRegistries],
    called with the exclusive lock of line 57 still held. *)
Definition AddRegistry (c : Controller) (storeLock : sync.RWMutex)
    (registry : Instance) : Call unit :=
  match sync.Lock storeLock with                                   (* 57 *)
  | None => Waits c storeLock
  | Some exclusive =>
      let c := setRegistries (registries c ++ [registry]) c in     (* 60 *)
      match GetRegistriesUnder c exclusive with                    (* 65 *)
      | Waits c storeLock => Waits c storeLock
      | Returns rs c storeLock =>
          let numK8SClusters := countK8SClusters rs 0%Z in          (* 64-71 *)
          Returns tt (setNumK8SRegistries numK8SClusters c)        (* 72 *)
            (sync.Unlock storeLock)                                (* 58 *)
      end
  end.

Fixpoint getRegistryIndexFrom (i : nat) (rs : list Instance) (clusterID : string)
    : nat * bool :=
  match rs with
  | [] => (0, false)
  | r :: rs' =>
      if decide (Cluster r = clusterID) then (i, true)
      else getRegistryIndexFrom (S i) rs' clusterID
  end.

Definition GetRegistryIndex (c : Controller) (clusterID : string) : nat * bool :=
  getRegistryIndexFrom 0 (registries c) clusterID.

(** Lines 76-104.  The two early returns take no further lock; the pass
    after a removal goes through [GetRegistries] like the one of
    [AddRegistry]. *)
Definition DeleteRegistry (c : Controller) (storeLock : sync.RWMutex)
    (clusterID : string) : Call unit :=
  match sync.Lock storeLock with                                   (* 77 *)
  | None => Waits c storeLock
  | Some exclusive =>
      if decide (length (registries c) = 0) then                   (* 80-83 *)
        Returns tt c (sync.Unlock exclusive)
      else
        let '(index, ok) := GetRegistryIndex c clusterID in          (* 84 *)
        if negb ok then Returns tt c (sync.Unlock exclusive)         (* 85-88 *)
        else
          let registries :=
            take index (registries c) ++ drop (S index) (registries c) in   (* 89-90 *)
          let c := setRegistries registries c in                     (* 91 *)
          match GetRegistriesUnder c exclusive with                  (* 95 *)
          | Waits c storeLock => Waits c storeLock
          | Returns rs c storeLock =>
              let numK8SClusters := countK8SClusters rs 0%Z in        (* 94-101 *)
              Returns tt (setNumK8SRegistries numK8SClusters c)      (* 102 *)
                (sync.Unlock storeLock)                              (* 78 *)
          end
  end.

(** *** Services *)

(** Lines 135-147: with at most one cluster-scoped member the lists are
    concatenated. *)
Fixpoint concatServices (rs : list Instance) (services : list loc)
    (errs : option error) : list loc * option error :=
  match rs with
  | [] => (services, errs)
  | r :: rs' =>
      match Services r with
      | (svcs, Some err) => concatServices rs' services (multierror.Append errs err)
      | (svcs, None) => concatServices rs' (services ++ svcs) errs
      end
  end.

(** Lines 187-189: [sp.Attributes.ClusterExternalAddresses[cluster] =
    clusterExternalAddresses[cluster]], when the source map is not nil. *)
Definition mergeExternalAddresses (cluster : string) (sp : loc)
    (clusterExternalAddresses : option loc) : M unit :=
  match clusterExternalAddresses with
  | Some l =>
      am ← loadExternalAddresses l;
      dst ← loadService sp;
      assignExternalAddresses (ClusterExternalAddresses (Attributes dst))
        cluster (indexRef am cluster)
  | None => mret tt
  end.

(** Lines 190-192, the same for [ClusterExternalPorts]. *)
Definition mergeExternalPorts (cluster : string) (sp : loc)
    (clusterExternalPorts : option loc) : M unit :=
  match clusterExternalPorts with
  | Some l =>
      pm ← loadExternalPorts l;
      dst ← loadService sp;
      assignExternalPorts (ClusterExternalPorts (Attributes dst))
        cluster (indexRef pm cluster)
  | None => mret tt
  end.

(** Lines 184-193: what the service [s] sighted in [cluster] contributes
    to the canonical copy [sp]. *)
Definition mergeClusterMaps (cluster : string) (sp s : loc) : M unit :=
  src ← loadService s;
  let clusterExternalAddresses := ClusterExternalAddresses (Attributes src) in
  let clusterExternalPorts := ClusterExternalPorts (Attributes src) in
  mergeExternalAddresses cluster sp clusterExternalAddresses;;
  mergeExternalPorts cluster sp clusterExternalPorts;;
  dst ← loadService sp;
  assignVIP (ClusterVIPs dst) cluster (model.Address src).

Record merged := {
  smap : gmap string loc;
  services : list loc;
  errs : option error
}.

(** Lines 171-194, for one service of a cluster-scoped member. *)
Definition sightService (cluster : string) (st : merged) (s : loc) : M merged :=
  svc ← loadService s;
  '(sp, st') ←
    match smap st !! Hostname svc with
    | Some sp => mret (sp, st)
    | None =>
        sp ← DeepCopy s;
        mret (sp, {| smap := <[Hostname svc := sp]> (smap st);
                     services := services st ++ [sp];
                     errs := errs st |})
    end;
  mergeClusterMaps cluster sp s;;
  mret st'.

(** Lines 154-197, for one member. *)
Definition mergeRegistry (st : merged) (r : Instance) : M merged :=
  match Services r with
  | (svcs, Some err) =>
      mret {| smap := smap st; services := services st;
              errs := multierror.Append (errs st) err |}
  | (svcs, None) =>
      if decide (Cluster r = "") then
        mret {| smap := smap st; services := services st ++ svcs;
                errs := errs st |}
      else foldM (sightService (Cluster r)) st svcs
  end.

Definition Services (c : Controller) : M (list loc * option error) :=
  if decide (numK8SRegistries c ≤ 1)%Z then
    mret (concatServices (GetRegistries c) [] None)
  else
    st ← foldM mergeRegistry {| smap := ∅; services := []; errs := None |}
         (GetRegistries c);
    mret (services st, errs st).

(** *** GetService *)

(** Lines 207-220: with at most one cluster-scoped member the first hit is
    returned. *)
Fixpoint getServiceFirst (rs : list Instance) (hostname : string)
    (errs : option error) : option loc * option error :=
  match rs with
  | [] => (None, errs)
  | r :: rs' =>
      match GetService r hostname with
      | (_, Some err) => getServiceFirst rs' hostname (multierror.Append errs err)
      | (None, None) => getServiceFirst rs' hostname errs
      | (Some service, None) => (Some service, None)
      end
  end.

(** Lines 222-258.  Lines 246-255 are the three assignments of lines
    184-193, with [out] for [sp]. *)
Fixpoint getServiceMerged (rs : list Instance) (hostname : string)
    (out : option loc) (errs : option error) : M (option loc * option error) :=
  match rs with
  | [] => mret (out, errs)
  | r :: rs' =>
      match GetService r hostname with
      | (_, Some err) =>
          getServiceMerged rs' hostname out (multierror.Append errs err)
      | (None, None) => getServiceMerged rs' hostname out errs
      | (Some service, None) =>
          if decide (Cluster r = "") then mret (Some service, None)
          else
            match out with
            | None =>
                out' ← DeepCopy service;
                getServiceMerged rs' hostname (Some out') errs
            | Some o =>
                mergeClusterMaps (Cluster r) o service;;
                getServiceMerged rs' hostname out errs
            end
      end
  end.

Definition GetService (c : Controller) (hostname : string)
    : M (option loc * option error) :=
  if decide (numK8SRegistries c ≤ 1)%Z then
    mret (getServiceFirst (GetRegistries c) hostname None)
  else getServiceMerged (GetRegistries c) hostname None None.

(** *** InstancesByPort *)

Fixpoint instancesByPortLoop (rs : list Instance) (svc : loc) (port : Z)
    (labels : Labels) (instances : list ServiceInstance.t) (errs : option error)
    : list ServiceInstance.t * option error :=
  match rs with
  | [] => (instances, errs)
  | r :: rs' =>
      match InstancesByPort r svc port labels with
      | (_, Some err) =>
          instancesByPortLoop rs' svc port labels instances
            (multierror.Append errs err)
      | (tmpInstances, None) =>
          if decide (0 < length tmpInstances) then
            instancesByPortLoop rs' svc port labels (instances ++ tmpInstances) errs
          else instancesByPortLoop rs' svc port labels instances errs
      end
  end.

Definition InstancesByPort (c : Controller) (svc : loc) (port : Z)
    (labels : Labels) : list ServiceInstance.t * option error :=
  let '(instances, errs) :=
    instancesByPortLoop (GetRegistries c) svc port labels [] None in
  if decide (0 < length instances) then (instances, None)
  else (instances, errs).

(** *** GetProxyServiceInstances *)

Definition nodeClusterID (node : Proxy.t) : string :=
  match Proxy.Metadata node with
  | None => ""
  | Some md =>
      if decide (NodeMetadata.ClusterID md = "") then ""
      else NodeMetadata.ClusterID md
  end.

Definition skipSearchingRegistryForProxy
    (nodeClusterID registryClusterID selfClusterID : string) : bool :=
  let registryClusterID :=
    if decide (registryClusterID = Kubernetes) then selfClusterID
    else registryClusterID in
  if decide (registryClusterID = "" ∨ nodeClusterID = "") then false
  else bool_decide (registryClusterID ≠ nodeClusterID).

(** The answer of [GetProxyServiceInstances], with the proxy as the call
    leaves it and, for the record, the positions of the members it asked. *)
Record proxyInstances := {
  out : list ServiceInstance.t;
  proxyErrs : option error;
  node' : Proxy.t;
  searched : list nat
}.

Section ClusterName.

(** [features.ClusterName.Get()]: the cluster id the process is configured
    with. *)
Variable ClusterName : string.

Fixpoint proxyInstancesLoop (i : nat) (rs : list Instance) (st : proxyInstances)
    : proxyInstances :=
  match rs with
  | [] => st
  | r :: rs' =>
      let nodeClusterID := nodeClusterID (node' st) in
      if skipSearchingRegistryForProxy nodeClusterID (Cluster r) ClusterName
      then proxyInstancesLoop (S i) rs' st
      else
        match GetProxyServiceInstances r (node' st) with
        | (_, Some err) =>
            proxyInstancesLoop (S i) rs'
              {| out := out st;
                 proxyErrs := multierror.Append (proxyErrs st) err;
                 node' := node' st;
                 searched := searched st ++ [i] |}
        | ([], None) =>
            proxyInstancesLoop (S i) rs'
              {| out := out st; proxyErrs := proxyErrs st; node' := node' st;
                 searched := searched st ++ [i] |}
        | ((inst0 :: _) as instances, None) =>
            {| out := out st ++ instances;
               proxyErrs := proxyErrs st;
               node' :=
                 {| Proxy.ID := Proxy.ID (node' st);
                    Proxy.Metadata := Proxy.Metadata (node' st);
                    Proxy.ClusterID :=
                      Locality.ClusterID
                        (IstioEndpoint.Locality (ServiceInstance.Endpoint inst0)) |};
               searched := searched st ++ [i] |}
        end
  end.

Definition GetProxyServiceInstances (c : Controller) (node : Proxy.t)
    : proxyInstances :=
  let st :=
    proxyInstancesLoop 0 (GetRegistries c)
      {| out := []; proxyErrs := None; node' := node; searched := [] |} in
  if decide (0 < length (out st)) then
    {| out := out st; proxyErrs := None; node' := node' st;
       searched := searched st |}
  else st.

End ClusterName.

(** *** Handler registration *)

(** The calls made so far: which member was asked to register which
    handler.  The member has it registered when it answered nil. *)
Definition Calls := list (nat * Handler).

Fixpoint appendServiceHandlerFrom (i : nat) (rs : list Instance) (f : Handler)
    (calls : Calls) : Calls * option error :=
  match rs with
  | [] => (calls, None)
  | r :: rs' =>
      match AppendServiceHandler r f with
      | Some err => (calls ++ [(i, f)], Some err)
      | None => appendServiceHandlerFrom (S i) rs' f (calls ++ [(i, f)])
      end
  end.

Definition AppendServiceHandler (c : Controller) (f : Handler)
    : Calls * option error :=
  appendServiceHandlerFrom 0 (GetRegistries c) f [].

Fixpoint appendInstanceHandlerFrom (i : nat) (rs : list Instance) (f : Handler)
    (calls : Calls) : Calls * option error :=
  match rs with
  | [] => (calls, None)
  | r :: rs' =>
      match AppendInstanceHandler r f with
      | Some err => (calls ++ [(i, f)], Some err)
      | None => appendInstanceHandlerFrom (S i) rs' f (calls ++ [(i, f)])
      end
  end.

Definition AppendInstanceHandler (c : Controller) (f : Handler)
    : Calls * option error :=
  appendInstanceHandlerFrom 0 (GetRegistries c) f [].

End aggregate.

Import serviceregistry aggregate.

(** ** Vocabulary of the statements *)

(** A member is cluster-scoped when its cluster id is not empty. *)
Definition clusterScoped (r : Instance) : Prop := Cluster r ≠ "".

Definition clusterScopedCount (rs : list Instance) : Z :=
  Z.of_nat (length (filter clusterScoped rs)).

(** [storeLock] as line 57 (or 77) leaves a free lock: held by one writer,
    the goroutine that runs the method. *)
Definition heldByCaller : sync.RWMutex :=
  {| sync.writer := true; sync.readers := 0 |}.

(** The members without the one at [index] (line 90). *)
Definition without (index : nat) (rs : list Instance) : list Instance :=
  take index rs ++ drop (S index) rs.

(** The cluster id a registry is compared under: the default name stands
    for the cluster the process itself runs in. *)
Definition remapped (registryClusterID selfClusterID : string) : string :=
  if decide (registryClusterID = "Kubernetes") then selfClusterID
  else registryClusterID.

(** What a member contributes to [InstancesByPort]: its instances when it
    answered without error. *)
Definition answeredInstances (svc : loc) (port : Z) (labels : Labels)
    (r : Instance) : list ServiceInstance.t :=
  match serviceregistry.InstancesByPort r svc port labels with
  | (instances, None) => instances
  | (_, Some _) => []
  end.

Definition failedInstances (svc : loc) (port : Z) (labels : Labels)
    (r : Instance) : Prop :=
  (serviceregistry.InstancesByPort r svc port labels).2 ≠ None.

(** The calls that ask the members at positions [i], [i+1], ..., [i+n-1]
    to register [f]. *)
Definition callsTo (i n : nat) (f : Handler) : Calls :=
  (λ j, (j, f)) <$> seq i n.

(** The errors of a scan, collected as the loops do. *)
Definition collect (errs : option error) (answers : list (option error))
    : option error :=
  fold_left (λ acc a, match a with
                      | Some err => multierror.Append acc err
                      | None => acc
                      end) answers errs.

(** *** Stores *)

(** A map object may change its contents; any other object stays as it is. *)
Definition sameKind (o o' : Object) : Prop :=
  match o, o' with
  | ObjVIPs _, ObjVIPs _
  | ObjExternalAddresses _, ObjExternalAddresses _
  | ObjExternalPorts _, ObjExternalPorts _ => True
  | _, _ => o = o'
  end.

(** [grows n h h']: [h'] keeps every object of [h], the ones below [n]
    unchanged, the others up to the contents of maps. *)
Definition grows (n : nat) (h h' : Heap) : Prop :=
  ∀ l o, h !! l = Some o →
    ∃ o', h' !! l = Some o' ∧ sameKind o o' ∧ (l < n → o' = o).

(** A reference is new with respect to the first [n] locations and holds a
    map of the right kind. *)
Definition newVIPs (n : nat) (h : Heap) (m : option loc) : Prop :=
  ∀ l, m = Some l → n ≤ l ∧ ∃ vm, h !! l = Some (ObjVIPs vm).
Definition newExternalAddresses (n : nat) (h : Heap) (m : option loc) : Prop :=
  ∀ l, m = Some l → n ≤ l ∧ ∃ am, h !! l = Some (ObjExternalAddresses am).
Definition newExternalPorts (n : nat) (h : Heap) (m : option loc) : Prop :=
  ∀ l, m = Some l → n ≤ l ∧ ∃ pm, h !! l = Some (ObjExternalPorts pm).

(** [canonical n h q s]: [q] is a service object allocated after the first
    [n] locations, and so are its three cluster-keyed maps. *)
Record canonical (n : nat) (h : Heap) (q : loc) (s : Service) : Prop := {
  canonical_new : n ≤ q;
  canonical_service : h !! q = Some (ObjService s);
  canonical_vips : newVIPs n h (ClusterVIPs s);
  canonical_addresses :
    newExternalAddresses n h (ClusterExternalAddresses (Attributes s));
  canonical_ports :
    newExternalPorts n h (ClusterExternalPorts (Attributes s))
}.

(** The references of a service lead to objects of the right kind, and so
    do the values of its two external maps. *)
Definition validStrings (h : Heap) (a : option loc) : Prop :=
  ∀ l, a = Some l → ∃ xs, h !! l = Some (ObjStrings xs).
Definition validPortMap (h : Heap) (a : option loc) : Prop :=
  ∀ l, a = Some l → ∃ pm, h !! l = Some (ObjPortMap pm).

Record validService (h : Heap) (s : Service) : Prop := {
  valid_vips : ∀ l, ClusterVIPs s = Some l → ∃ vm, h !! l = Some (ObjVIPs vm);
  valid_addresses : ∀ l, ClusterExternalAddresses (Attributes s) = Some l →
    ∃ am, h !! l = Some (ObjExternalAddresses am)
          ∧ ∀ k a, am !! k = Some a → validStrings h a;
  valid_ports : ∀ l, ClusterExternalPorts (Attributes s) = Some l →
    ∃ pm, h !! l = Some (ObjExternalPorts pm)
          ∧ ∀ k a, pm !! k = Some a → validPortMap h a
}.

(** [copyOf h h' s s']: [s'] in [h'] carries the hostname, the address and
    the cluster addresses of [s] in [h], and has a map wherever [s] has
    one. *)
Record copyOf (h h' : Heap) (s s' : Service) : Prop := {
  copy_hostname : Hostname s' = Hostname s;
  copy_address : model.Address s' = model.Address s;
  copy_vips :
    match ClusterVIPs s with
    | None => ClusterVIPs s' = None
    | Some l => ∃ l' vm, ClusterVIPs s' = Some l'
                         ∧ h !! l = Some (ObjVIPs vm)
                         ∧ h' !! l' = Some (ObjVIPs vm)
    end;
  copy_addresses :
    ClusterExternalAddresses (Attributes s) = None
    ↔ ClusterExternalAddresses (Attributes s') = None;
  copy_ports :
    ClusterExternalPorts (Attributes s) = None
    ↔ ClusterExternalPorts (Attributes s') = None
}.

(** Every map of cluster addresses of [h] is in [h'] as it was. *)
Definition keepsVIPs (h h' : Heap) : Prop :=
  ∀ l vm, h !! l = Some (ObjVIPs vm) → h' !! l = Some (ObjVIPs vm).

(** *** Sample registries *)

Module sample.

Definition service (hostname address : string) (vips addrs ports : option loc)
    : Service :=
  {| Hostname := hostname; model.Address := address; ClusterVIPs := vips;
     Attributes := {| ClusterExternalAddresses := addrs;
                      ClusterExternalPorts := ports |} |}.

(** A registry of [cluster] that lists [svcs] and finds [svc] under
    [hostname]. *)
Definition registry (cluster : string) (svcs : list loc) (hostname : string)
    (svc : option loc) : Instance :=
  {| Cluster := cluster;
     Provider := "Kubernetes";
     serviceregistry.Services := (svcs, None);
     serviceregistry.GetService :=
       λ name, (if decide (name = hostname) then svc else None, None);
     serviceregistry.InstancesByPort := λ _ _ _, ([], None);
     serviceregistry.GetProxyServiceInstances := λ _, ([], None);
     serviceregistry.AppendServiceHandler := λ _, None;
     serviceregistry.AppendInstanceHandler := λ _, None |}.

(** A registry whose every operation fails with [msg]. *)
Definition failing (cluster msg : string) : Instance :=
  {| Cluster := cluster;
     Provider := "Mock";
     serviceregistry.Services := ([], Some (errorString msg));
     serviceregistry.GetService := λ _, (None, Some (errorString msg));
     serviceregistry.InstancesByPort := λ _ _ _, ([], Some (errorString msg));
     serviceregistry.GetProxyServiceInstances := λ _, ([], Some (errorString msg));
     serviceregistry.AppendServiceHandler := λ _, Some (errorString msg);
     serviceregistry.AppendInstanceHandler := λ _, Some (errorString msg) |}.

(** The controller that holds the members [rs] and counts [n] of them as
    cluster-scoped. *)
Definition controller (n : Z) (rs : list Instance) : Controller :=
  {| numK8SRegistries := n; registries := rs |}.

(** Two clusters that both run the service "h"; only the second one
    exposes it through a load balancer, so only its copy has a map of
    external addresses. *)
Definition oneLoadBalancer : Heap :=
  [ ObjVIPs ∅;
    ObjService (service "h" "10.0.0.1" (Some 0) None None);
    ObjVIPs ∅;
    ObjStrings ["34.1.2.3"];
    ObjExternalAddresses {[ "c2" := Some 3 ]};
    ObjService (service "h" "10.0.0.2" (Some 2) (Some 4) None) ].

Definition twoClusters : Controller :=
  controller 2 [ registry "c1" [1] "h" (Some 1);
                 registry "c2" [5] "h" (Some 5) ].

(** The same with node ports: only the second cluster has a map of
    external ports. *)
Definition oneNodePort : Heap :=
  [ ObjVIPs ∅;
    ObjService (service "h" "10.0.0.1" (Some 0) None None);
    ObjVIPs ∅;
    ObjPortMap {[ 80%N := 31080%N ]};
    ObjExternalPorts {[ "c2" := Some 3 ]};
    ObjService (service "h" "10.0.0.2" (Some 2) None (Some 4)) ].

(** The members [{cluster:"", svcs:[S1]}, {cluster:"c1", svcs:[S2]},
    {cluster:"c2", svcs:[S2]}]: a static registry and two clusters that both
    expose "h" through a load balancer. *)
Definition twoLoadBalancers : Heap :=
  [ ObjVIPs ∅;
    ObjStrings ["34.1.1.1"];
    ObjExternalAddresses {[ "c1" := Some 1 ]};
    ObjService (service "h" "10.0.0.1" (Some 0) (Some 2) None);
    ObjVIPs ∅;
    ObjStrings ["34.2.2.2"];
    ObjExternalAddresses {[ "c2" := Some 5 ]};
    ObjService (service "h" "10.0.0.2" (Some 4) (Some 6) None);
    ObjService (service "s1" "1.1.1.1" None None None) ].

Definition threeMembers : Controller :=
  controller 2 [ registry "" [8] "s1" (Some 8);
                 registry "c1" [3] "h" (Some 3);
                 registry "c2" [7] "h" (Some 7) ].

(** Two clusters that run "h"; the record of the first one comes with an
    address for a cluster "c9" that is not among the members. *)
Definition foreignEntry : Heap :=
  [ ObjVIPs {[ "c9" := "10.9.9.9" ]};
    ObjService (service "h" "10.0.0.1" (Some 0) None None);
    ObjVIPs ∅;
    ObjService (service "h" "10.0.0.2" (Some 2) None None) ].

Definition twoPlain : Controller :=
  controller 2 [ registry "c1" [1] "h" (Some 1);
                 registry "c2" [3] "h" (Some 3) ].

(** The same two clusters; the record of the first one has no map of
    cluster addresses. *)
Definition noClusterVIPs : Heap :=
  [ ObjVIPs ∅;
    ObjService (service "h" "10.0.0.1" None None None);
    ObjVIPs ∅;
    ObjService (service "h" "10.0.0.2" (Some 2) None None) ].

(** Two clusters that expose "h" on node ports. *)
Definition nodePorts : Heap :=
  [ ObjVIPs ∅;
    ObjPortMap {[ 80%N := 30080%N ]};
    ObjExternalPorts {[ "c1" := Some 1 ]};
    ObjService (service "h" "10.0.0.1" (Some 0) None (Some 2));
    ObjVIPs ∅;
    ObjPortMap {[ 80%N := 31080%N ]};
    ObjExternalPorts {[ "c2" := Some 5 ]};
    ObjService (service "h" "10.0.0.2" (Some 4) None (Some 6)) ].

Definition twoNodePorts : Controller :=
  controller 2 [ registry "c1" [3] "h" (Some 3);
                 registry "c2" [7] "h" (Some 7) ].

(** A static registry that is down next to one that answers. *)
Definition oneDown : Controller :=
  controller 0 [ failing "" "down";
                 registry "" [1] "h" (Some 1) ].

(** Two clusters that answer next to one that is down. *)
Definition oneClusterDown : Controller :=
  controller 3 [ failing "c0" "down";
                 registry "c1" [3] "h" (Some 3);
                 registry "c2" [7] "h" (Some 7) ].

End sample.

(** *** A merge pass *)

(** What a member contributes to [Services]: its list when it answered
    without error. *)
Definition answeredServices (r : Instance) : list loc :=
  match serviceregistry.Services r with
  | (svcs, None) => svcs
  | (_, Some _) => []
  end.

(** A member without cluster id lists (finds) the service at [q]. *)
Definition listedUnscoped (rs : list Instance) (q : loc) : Prop :=
  ∃ r, r ∈ rs ∧ Cluster r = "" ∧ q ∈ answeredServices r.

Definition foundUnscoped (rs : list Instance) (hostname : string) (q : loc) : Prop :=
  ∃ r, r ∈ rs ∧ Cluster r = ""
       ∧ serviceregistry.GetService r hostname = (Some q, None).

(** What holds of a pass over members of [rs] that started in store [h0]:
    nothing that was in [h0] has changed, the records of the hostname map
    are canonical, and the list holds them next to what the members
    without cluster id have listed. *)
Record passInv (rs : list Instance) (h0 h : Heap) (st : merged) : Prop := {
  pass_grows : grows (length h0) h0 h;
  pass_canonical :
    ∀ host q, smap st !! host = Some q → ∃ sq, canonical (length h0) h q sq;
  pass_services :
    ∀ q, q ∈ services st → listedUnscoped rs q ∨ ∃ host, smap st !! host = Some q
}.

(** The answers of the members to [Services] and to [GetService]. *)
Definition servicesErrors (rs : list Instance) : list (option error) :=
  (λ r, (serviceregistry.Services r).2) <$> rs.
Definition getServiceErrors (hostname : string) (rs : list Instance)
    : list (option error) :=
  (λ r, (serviceregistry.GetService r hostname).2) <$> rs.

(** *** Services sighted under one hostname *)

Definition hostnameAt (h : Heap) (p : loc) : option string :=
  match h !! p with
  | Some (ObjService s) => Some (Hostname s)
  | _ => None
  end.

(** The records of a list that carry [hostname]. *)
Definition recordsFor (h : Heap) (hostname : string) (svcs : list loc) : list loc :=
  filter (λ p, hostnameAt h p = Some hostname) svcs.

Definition otherHost (h0 : Heap) (hostname : string) (p : loc) : Prop :=
  ∃ s, h0 !! p = Some (ObjService s) ∧ Hostname s ≠ hostname.

(** [reports h0 hostname rs ss]: of the members [rs], the cluster-scoped
    ones each list one service, which carries [hostname]; [ss] are their
    cluster ids and services, in member order.  The other members list
    services of other hostnames, or fail. *)
Inductive reports (h0 : Heap) (hostname : string)
    : list Instance → list (string * Service) → Prop :=
| reports_nil : reports h0 hostname [] []
| reports_other r rs ss :
    Cluster r = "" →
    ((serviceregistry.Services r).2 = None →
     Forall (otherHost h0 hostname) (serviceregistry.Services r).1) →
    reports h0 hostname rs ss →
    reports h0 hostname (r :: rs) ss
| reports_sighting r rs ss p s :
    Cluster r ≠ "" →
    serviceregistry.Services r = ([p], None) →
    h0 !! p = Some (ObjService s) →
    Hostname s = hostname →
    reports h0 hostname rs ss →
    reports h0 hostname (r :: rs) ((Cluster r, s) :: ss).

(** [finds h0 hostname rs ss]: of the members [rs], [ss] are the cluster
    ids and services of those that find a service under [hostname], all of
    them cluster-scoped; the other members find nothing, or fail. *)
Inductive finds (h0 : Heap) (hostname : string)
    : list Instance → list (string * Service) → Prop :=
| finds_nil : finds h0 hostname [] []
| finds_miss r rs ss :
    (serviceregistry.GetService r hostname).2 ≠ None
    ∨ serviceregistry.GetService r hostname = (None, None) →
    finds h0 hostname rs ss →
    finds h0 hostname (r :: rs) ss
| finds_hit r rs ss p s :
    Cluster r ≠ "" →
    serviceregistry.GetService r hostname = (Some p, None) →
    h0 !! p = Some (ObjService s) →
    finds h0 hostname rs ss →
    finds h0 hostname (r :: rs) ((Cluster r, s) :: ss).

(** A later sighting can be merged into a copy of [first]: where it has an
    external map, so has [first]. *)
Definition contributes (h0 : Heap) (first s : Service) : Prop :=
  (∀ l, ClusterExternalAddresses (Attributes s) = Some l →
     (∃ am, h0 !! l = Some (ObjExternalAddresses am))
     ∧ ClusterExternalAddresses (Attributes first) ≠ None)
  ∧ (∀ l, ClusterExternalPorts (Attributes s) = Some l →
       (∃ pm, h0 !! l = Some (ObjExternalPorts pm))
       ∧ ClusterExternalPorts (Attributes first) ≠ None).

(** The entries [cluster id ↦ primary address] of the sightings, and what
    assigning them one after the other makes of a map. *)
Definition clusterAddresses (ss : list (string * Service)) : list (string * string) :=
  (λ cs, (cs.1, model.Address cs.2)) <$> ss.

Definition assignAll (vm : gmap string string) (ss : list (string * Service))
    : gmap string string :=
  foldl (λ m cs, <[cs.1 := model.Address cs.2]> m) vm ss.

(** *** What a record shows *)

Definition readVIPs (h : Heap) (m : option loc)
    : option (option (gmap string string)) :=
  match m with
  | None => Some None
  | Some l => match h !! l with
              | Some (ObjVIPs vm) => Some (Some vm)
              | _ => None
              end
  end.

Definition readExternalAddresses (h : Heap) (m : option loc)
    : option (option (gmap string (option loc))) :=
  match m with
  | None => Some None
  | Some l => match h !! l with
              | Some (ObjExternalAddresses am) => Some (Some am)
              | _ => None
              end
  end.

Definition readExternalPorts (h : Heap) (m : option loc)
    : option (option (gmap string (option loc))) :=
  match m with
  | None => Some None
  | Some l => match h !! l with
              | Some (ObjExternalPorts pm) => Some (Some pm)
              | _ => None
              end
  end.

(** The fields of the record at [q] and the entries of its three maps; an
    entry of an external map is the reference it holds. *)
Definition view (h : Heap) (q : loc)
    : option (Service * option (gmap string string)
              * option (gmap string (option loc))
              * option (gmap string (option loc))) :=
  match h !! q with
  | Some (ObjService s) =>
      vips ← readVIPs h (ClusterVIPs s);
      addrs ← readExternalAddresses h (ClusterExternalAddresses (Attributes s));
      ports ← readExternalPorts h (ClusterExternalPorts (Attributes s));
      Some (s, vips, addrs, ports)
  | _ => None
  end.

(** [q.Attributes.ClusterExternalPorts[cluster][port]], read through every
    reference on the way. *)
Definition externalPort (h : Heap) (q : loc) (cluster : string) (port : N)
    : option N :=
  match h !! q with
  | Some (ObjService s) =>
      l ← ClusterExternalPorts (Attributes s);
      match h !! l with
      | Some (ObjExternalPorts pm) =>
          l' ← indexRef pm cluster;
          match h !! l' with
          | Some (ObjPortMap ports) => ports !! port
          | _ => None
          end
      | _ => None
      end
  | _ => None
  end.

(** [q.Attributes.ClusterExternalAddresses[cluster]], likewise. *)
Definition externalAddresses (h : Heap) (q : loc) (cluster : string)
    : option (list string) :=
  match h !! q with
  | Some (ObjService s) =>
      l ← ClusterExternalAddresses (Attributes s);
      match h !! l with
      | Some (ObjExternalAddresses am) =>
          l' ← indexRef am cluster;
          match h !! l' with
          | Some (ObjStrings xs) => Some xs
          | _ => None
          end
      | _ => None
      end
  | _ => None
  end.

(** [h'] is [h] after the objects below [n] have been mutated at will:
    every object from [n] on is as it was. *)
Definition mutatedBelow (n : nat) (h h' : Heap) : Prop :=
  length h' = length h ∧ ∀ l, n ≤ l → h' !! l = h !! l.

(** The first service the members find under a hostname. *)
Fixpoint firstFound (hostname : string) (rs : list Instance) : option loc :=
  match rs with
  | [] => None
  | r :: rs' =>
      match serviceregistry.GetService r hostname with
      | (Some p, None) => Some p
      | _ => firstFound hostname rs'
      end
  end.

(** A member does not find the service, or fails. *)
Definition misses (hostname : string) (r : Instance) : Prop :=
  (serviceregistry.GetService r hostname).2 ≠ None
  ∨ (serviceregistry.GetService r hostname).1 = None.

(** [q.ClusterVIPs[cluster]] *)
Definition clusterVIP (h : Heap) (q : loc) (cluster : string) : option string :=
  match h !! q with
  | Some (ObjService s) =>
      l ← ClusterVIPs s;
      match h !! l with
      | Some (ObjVIPs vm) => vm !! cluster
      | _ => None
      end
  | _ => None
  end.

(** The pre-filter keeps the proxy [node] out of the registry [r]. *)
Definition skippedFor (self : string) (node : Proxy.t) (r : Instance) : Prop :=
  skipSearchingRegistryForProxy (nodeClusterID node) (Cluster r) self = true.

(** The external maps of a service are where its references say. *)
Definition typedExternal (h : Heap) (s : Service) : Prop :=
  (∀ l, ClusterExternalAddresses (Attributes s) = Some l →
     ∃ am, h !! l = Some (ObjExternalAddresses am))
  ∧ (∀ l, ClusterExternalPorts (Attributes s) = Some l →
       ∃ pm, h !! l = Some (ObjExternalPorts pm)).

(** A sighting has an external map that the first one lacks. *)
Definition clashes (first s : Service) : Prop :=
  (ClusterExternalAddresses (Attributes s) ≠ None
   ∧ ClusterExternalAddresses (Attributes first) = None)
  ∨ (ClusterExternalPorts (Attributes s) ≠ None
     ∧ ClusterExternalPorts (Attributes first) = None).

(** ** The registry set *)

Section RegistrySet.

Implicit Types (c : Controller) (rs : list Instance) (r : Instance)
  (storeLock : sync.RWMutex).

(** The pass of lines 64-71 counts the cluster-scoped members from
    scratch. *)
Lemma countK8SClusters_scan rs n :
  countK8SClusters rs n = (n + clusterScopedCount rs)%Z.
Proof.
  revert n. induction rs as [|r rs IH]; intros n; simpl.
  - unfold clusterScopedCount. simpl. lia.
  - rewrite IH. unfold clusterScopedCount, clusterScoped.
    rewrite filter_cons. destruct (decide (Cluster r ≠ "")); simpl; lia.
Qed.

Lemma clusterScopedCount_snoc rs r :
  clusterScopedCount (rs ++ [r])
  = (clusterScopedCount rs + (if decide (clusterScoped r) then 1 else 0))%Z.
Proof.
  unfold clusterScopedCount. rewrite filter_app, length_app, filter_cons.
  destruct (decide (clusterScoped r)); simpl; lia.
Qed.

(** A free lock is granted to a writer, who then holds it alone. *)
Lemma Lock_zero : sync.Lock sync.zero = Some heldByCaller.
Proof. reflexivity. Qed.

(** While a writer holds the lock no read lock is granted, whoever asks. *)
Lemma RLock_writer storeLock :
  sync.writer storeLock = true → sync.RLock storeLock = None.
Proof. unfold sync.RLock. by intros ->. Qed.

Lemma GetRegistriesUnder_writer c storeLock :
  sync.writer storeLock = true →
  GetRegistriesUnder c storeLock = Waits c storeLock.
Proof. intros H. unfold GetRegistriesUnder. by rewrite RLock_writer. Qed.

(** With no writer on the lock, [GetRegistries] returns the members and
    leaves the lock as it found it: what the methods that take no lock of
    their own get from it. *)
Lemma GetRegistriesUnder_granted c storeLock :
  sync.writer storeLock = false →
  GetRegistriesUnder c storeLock = Returns (GetRegistries c) c storeLock.
Proof. destruct storeLock as [w n]. simpl. by intros ->. Qed.

Lemma Lock_granted storeLock exclusive :
  sync.Lock storeLock = Some exclusive → sync.writer exclusive = true.
Proof.
  unfold sync.Lock. destruct (_ || _); [done|]. by intros [= <-].
Qed.

(** From whatever state of the lock, [AddRegistry] does not return: either
    the exclusive lock is not granted, or the read lock of line 108 is not,
    for the exclusive lock granted at line 57. *)
Lemma AddRegistry_never_returns c storeLock registry :
  ∃ c' storeLock', AddRegistry c storeLock registry = Waits c' storeLock'.
Proof.
  unfold AddRegistry.
  destruct (sync.Lock storeLock) as [exclusive|] eqn:Hlock; [|by eexists _, _].
  rewrite GetRegistriesUnder_writer by by eapply Lock_granted.
  by eexists _, _.
Qed.

Lemma getRegistryIndexFrom_unknown rs i clusterID :
  Forall (λ r, Cluster r ≠ clusterID) rs →
  getRegistryIndexFrom i rs clusterID = (0, false).
Proof.
  intros H. revert i. induction H as [|r rs Hr _ IH]; intros i; simpl; [done|].
  destruct (decide (Cluster r = clusterID)); [done|]. apply IH.
Qed.

(** [DeleteRegistry] on a free lock: the two early returns release the
    lock; after a removal the call waits like [AddRegistry]. *)
Lemma DeleteRegistry_zero c clusterID :
  DeleteRegistry c sync.zero clusterID
  = match GetRegistryIndex c clusterID with
    | (index, true) =>
        Waits (setRegistries (without index (registries c)) c) heldByCaller
    | (_, false) => Returns tt c sync.zero
    end.
Proof.
  unfold DeleteRegistry. rewrite Lock_zero.
  destruct (decide (length (registries c) = 0)) as [Hlen|Hlen].
  - apply length_zero_iff_nil in Hlen. unfold GetRegistryIndex.
    by rewrite Hlen.
  - by destruct (GetRegistryIndex c clusterID) as [index [|]].
Qed.

End RegistrySet.

(** C8 (the code departs from it).  Called on any controller whose lock is
    free, [AddRegistry] takes the exclusive lock (line 57), appends the
    member (line 60) and then waits for the read lock of [GetRegistries]
    (lines 65, 108), which is not granted while a writer holds the lock:
    the writer is the call itself, so it waits for ever.  The recount
    (lines 64-72) is never reached: in the state the call is stuck in the
    sequence has the new member, so the number of cluster-scoped members is
    up by one when the new member has a cluster id, and the cached count is
    what it was.  [DeleteRegistry] does the same when it finds the cluster
    id (lines 77, 95); only when it does not (in particular on the empty
    set) it returns, with the controller and the lock as they were. *)
Theorem membership_change_waits_on_own_lock
    (c : Controller) (registry : Instance) (clusterID : string) :
  AddRegistry c sync.zero registry
  = Waits (setRegistries (registries c ++ [registry]) c) heldByCaller
  ∧ clusterScopedCount (registries (setRegistries (registries c ++ [registry]) c))
    = (clusterScopedCount (registries c)
       + (if decide (clusterScoped registry) then 1 else 0))%Z
  ∧ numK8SRegistries (setRegistries (registries c ++ [registry]) c)
    = numK8SRegistries c
  ∧ DeleteRegistry c sync.zero clusterID
    = match GetRegistryIndex c clusterID with
      | (index, true) =>
          Waits (setRegistries (without index (registries c)) c) heldByCaller
      | (_, false) => Returns tt c sync.zero
      end.
Proof.
  split_and!.
  - unfold AddRegistry. rewrite Lock_zero.
    by rewrite GetRegistriesUnder_writer.
  - apply clusterScopedCount_snoc.
  - reflexivity.
  - apply DeleteRegistry_zero.
Qed.


(** ** The query router *)

Section Affinity.

Variable self : string.
Variable node : Proxy.t.

Lemma skip_spec n r :
  skipSearchingRegistryForProxy n r self = true
  ↔ remapped r self ≠ "" ∧ n ≠ "" ∧ remapped r self ≠ n.
Proof.
  unfold skipSearchingRegistryForProxy, remapped, Kubernetes.
  destruct (decide (r = "Kubernetes")) as [->|Hr];
    (destruct (decide _) as [Hor|Hor];
     [ split; [done | intros (?&?&?); destruct Hor; done]
     | rewrite bool_decide_eq_true; split;
       [ intros ?; repeat split; try done; intros ?; apply Hor; auto
       | intros (?&?&?); done ] ]).
Qed.

Local Abbreviation skipped := (skippedFor self node).

(** The loop asks no member it should skip, and while no member has
    produced instances it asks every other one. *)
Lemma proxyInstancesLoop_searched rs i st :
  node' st = node →
  let st' := proxyInstancesLoop self i rs st in
  (∀ j, j ∈ searched st' →
        j ∈ searched st ∨ ∃ r, i ≤ j ∧ rs !! (j - i) = Some r ∧ ¬ skipped r)
  ∧ (out st' = out st →
     ∀ j r, rs !! j = Some r → ¬ skipped r → i + j ∈ searched st').
Proof.
  revert i st. induction rs as [|r rs IH]; intros i st Hnode; simpl.
  { split; [auto | intros _ j r Hj; by rewrite lookup_nil in Hj]. }
  rewrite Hnode.
  destruct (skipSearchingRegistryForProxy _ _ _) eqn:Hskip.
  - destruct (IH (S i) st Hnode) as [IH1 IH2]. split.
    + intros j Hj. destruct (IH1 j Hj) as [?|(r'&Hle&Hr'&Hns)]; [by left|].
      right. exists r'. split; [lia|]. split; [|done].
      replace (j - i) with (S (j - S i)) by lia. done.
    + intros Hout [|j] r' Hj Hns; simpl in Hj.
      * injection Hj as ->. by destruct Hns.
      * replace (i + S j) with (S i + j) by lia. by apply (IH2 Hout j r').
  - assert (Hr : ¬ skipped r) by (unfold skippedFor; by rewrite Hskip).
    assert (Hcont : ∀ st0, node' st0 = node → out st0 = out st →
              searched st0 = searched st ++ [i] →
              let st' := proxyInstancesLoop self (S i) rs st0 in
              (∀ j, j ∈ searched st' →
                j ∈ searched st ∨ ∃ r0, i ≤ j ∧ (r :: rs) !! (j - i) = Some r0 ∧ ¬ skipped r0)
              ∧ (out st' = out st →
                 ∀ j r0, (r :: rs) !! j = Some r0 → ¬ skipped r0 → i + j ∈ searched st')).
    { intros st0 Hn0 Ho0 Hs0. destruct (IH (S i) st0 Hn0) as [IH1 IH2]. split.
      - intros j Hj. destruct (IH1 j Hj) as [Hin|(r'&Hle&Hr'&Hns)].
        + rewrite Hs0 in Hin. apply elem_of_app in Hin as [?|Hin]; [by left|].
          apply list_elem_of_singleton in Hin as ->. right. exists r.
          split; [lia|]. by rewrite Nat.sub_diag.
        + right. exists r'. split; [lia|]. split; [|done].
          replace (j - i) with (S (j - S i)) by lia. done.
      - intros Hout [|j] r' Hj Hns; simpl in Hj.
        + rewrite Nat.add_0_r.
          assert (Hpre : ∀ rs0 k st1, i ∈ searched st1 →
                    i ∈ searched (proxyInstancesLoop self k rs0 st1)).
          { clear. induction rs0 as [|r0 rs0 IH0]; intros k st1 Hin; simpl; [done|].
            destruct (skipSearchingRegistryForProxy _ _ _); [by apply IH0|].
            destruct (serviceregistry.GetProxyServiceInstances r0 (node' st1))
              as [[|inst0 insts] [err|]]; try (apply IH0); simpl;
              apply elem_of_app; by left. }
          apply Hpre. rewrite Hs0. apply elem_of_app. right. by left.
        + replace (i + S j) with (S i + j) by lia.
          apply (IH2 ltac:(congruence) j r'); done. }
    destruct (serviceregistry.GetProxyServiceInstances r node)
      as [[|inst0 insts] [err|]]; try (apply Hcont; done).
    simpl. split.
    + intros j Hj. apply elem_of_app in Hj as [?|Hj]; [by left|].
      apply list_elem_of_singleton in Hj as ->. right. exists r.
      split; [lia|]. by rewrite Nat.sub_diag.
    + intros Hout. exfalso. apply (f_equal length) in Hout.
      rewrite length_app in Hout. simpl in Hout. lia.
Qed.

End Affinity.


Section Collect.

Lemma collect_not_None errs answers :
  collect errs answers ≠ None ↔ errs ≠ None ∨ Exists (λ a, a ≠ None) answers.
Proof.
  revert errs. induction answers as [|a answers IH]; intros errs; simpl.
  - rewrite Exists_nil. tauto.
  - rewrite Exists_cons. unfold collect in *. simpl. rewrite IH.
    destruct a as [err|]; unfold multierror.Append; intuition congruence.
Qed.

Lemma collect_None errs answers :
  collect errs answers = None ↔ errs = None ∧ Forall (λ a, a = None) answers.
Proof.
  revert errs. induction answers as [|a answers IH]; intros errs; simpl.
  - split; [by intros -> | by intros [-> _]].
  - rewrite Forall_cons. unfold collect in *. simpl. rewrite IH.
    destruct a as [err|]; unfold multierror.Append; intuition congruence.
Qed.

End Collect.

Section InstancesByPort.

Variables (svc : loc) (port : Z) (labels : Labels).

Lemma instancesByPortLoop_spec rs instances errs :
  instancesByPortLoop rs svc port labels instances errs
  = (instances ++ concat (answeredInstances svc port labels <$> rs),
     collect errs ((λ r, (serviceregistry.InstancesByPort r svc port labels).2) <$> rs)).
Proof.
  revert instances errs. induction rs as [|r rs IH]; intros instances errs; simpl.
  - by rewrite app_nil_r.
  - unfold answeredInstances at 1.
    destruct (serviceregistry.InstancesByPort r svc port labels)
      as [tmpInstances [err|]]; simpl.
    + by rewrite IH.
    + destruct (decide _) as [Hlen|Hlen]; rewrite IH.
      * by rewrite app_assoc.
      * destruct tmpInstances; [done | simpl in Hlen; lia].
Qed.

End InstancesByPort.

(** C4.  [InstancesByPort] returns the instances of the members that
    answered without error, concatenated in member order; its error is
    non-nil exactly when that list is empty and some member failed.  With
    two members, one failing and one answering a non-empty list, in either
    order, it returns that list and a nil error. *)
Theorem InstancesByPort_masks_errors (c : Controller) (svc : loc) (port : Z)
    (labels : Labels) :
  (aggregate.InstancesByPort c svc port labels).1
    = concat (answeredInstances svc port labels <$> registries c)
  ∧ ((aggregate.InstancesByPort c svc port labels).2 ≠ None
     ↔ (aggregate.InstancesByPort c svc port labels).1 = []
       ∧ Exists (failedInstances svc port labels) (registries c))
  ∧ (∀ r1 r2 instances,
       failedInstances svc port labels r1 →
       serviceregistry.InstancesByPort r2 svc port labels = (instances, None) →
       instances ≠ [] →
       registries c = [r1; r2] ∨ registries c = [r2; r1] →
       aggregate.InstancesByPort c svc port labels = (instances, None)).
Proof.
  assert (Hrun : aggregate.InstancesByPort c svc port labels
    = (concat (answeredInstances svc port labels <$> registries c),
       if decide (0 < length (concat (answeredInstances svc port labels <$> registries c)))
       then None
       else collect None
         ((λ r, (serviceregistry.InstancesByPort r svc port labels).2) <$> registries c))).
  { unfold aggregate.InstancesByPort, GetRegistries.
    rewrite instancesByPortLoop_spec. simpl. by destruct (decide _). }
  rewrite Hrun. simpl. split; [done|]. split.
  - destruct (decide _) as [Hlen|Hlen].
    + split; [done|]. intros [Hnil _]. rewrite Hnil in Hlen. simpl in Hlen. lia.
    + assert (Hnil : concat (answeredInstances svc port labels <$> registries c) = []).
      { destruct (concat _); [done | simpl in Hlen; lia]. }
      rewrite collect_not_None, Exists_fmap. unfold failedInstances.
      intuition congruence.
  - intros r1 r2 instances Hfail Hok Hne Horder.
    assert (H1 : answeredInstances svc port labels r1 = []).
    { unfold answeredInstances, failedInstances in *.
      destruct (serviceregistry.InstancesByPort r1 svc port labels) as [? [?|]]; done. }
    assert (H2 : answeredInstances svc port labels r2 = instances).
    { unfold answeredInstances. by rewrite Hok. }
    assert (Hcat : concat (answeredInstances svc port labels <$> registries c) = instances).
    { destruct Horder as [-> | ->]; simpl; rewrite H1, H2; simpl;
        by rewrite ?app_nil_r. }
    rewrite Hcat. destruct (decide (0 < length instances)) as [|Hlen]; [done|].
    destruct instances; [done | simpl in Hlen; lia].
Qed.

(** ** Handler registration *)

Section Handlers.

Variable f : Handler.

Lemma callsTo_S i n : callsTo i (S n) f = (i, f) :: callsTo (S i) n f.
Proof. reflexivity. Qed.

Lemma appendServiceHandlerFrom_ok rs i calls :
  Forall (λ r, serviceregistry.AppendServiceHandler r f = None) rs →
  appendServiceHandlerFrom i rs f calls = (calls ++ callsTo i (length rs) f, None).
Proof.
  intros H. revert i calls.
  induction H as [|r rs Hr _ IH]; intros i calls; simpl.
  - by rewrite app_nil_r.
  - rewrite Hr, IH, callsTo_S, <- app_assoc. done.
Qed.

Lemma appendServiceHandlerFrom_fails pre r post err i calls :
  Forall (λ r, serviceregistry.AppendServiceHandler r f = None) pre →
  serviceregistry.AppendServiceHandler r f = Some err →
  appendServiceHandlerFrom i (pre ++ r :: post) f calls
  = (calls ++ callsTo i (S (length pre)) f, Some err).
Proof.
  intros H Hr. revert i calls.
  induction H as [|r0 pre Hr0 _ IH]; intros i calls; simpl.
  - by rewrite Hr.
  - rewrite Hr0, IH, (callsTo_S i), <- app_assoc. done.
Qed.

Lemma appendInstanceHandlerFrom_ok rs i calls :
  Forall (λ r, serviceregistry.AppendInstanceHandler r f = None) rs →
  appendInstanceHandlerFrom i rs f calls = (calls ++ callsTo i (length rs) f, None).
Proof.
  intros H. revert i calls.
  induction H as [|r rs Hr _ IH]; intros i calls; simpl.
  - by rewrite app_nil_r.
  - rewrite Hr, IH, callsTo_S, <- app_assoc. done.
Qed.

Lemma appendInstanceHandlerFrom_fails pre r post err i calls :
  Forall (λ r, serviceregistry.AppendInstanceHandler r f = None) pre →
  serviceregistry.AppendInstanceHandler r f = Some err →
  appendInstanceHandlerFrom i (pre ++ r :: post) f calls
  = (calls ++ callsTo i (S (length pre)) f, Some err).
Proof.
  intros H Hr. revert i calls.
  induction H as [|r0 pre Hr0 _ IH]; intros i calls; simpl.
  - by rewrite Hr.
  - rewrite Hr0, IH, (callsTo_S i), <- app_assoc. done.
Qed.

End Handlers.

(** C7.  Registration fails fast.  With three members of which the first
    registers the handler and the second refuses it with [err], the call
    asks the first and the second member only and returns [err] itself; the
    third member is not asked.  When every member registers the handler the
    call asks each of them, in order, and returns nil.  The same holds for
    [AppendInstanceHandler]. *)
Theorem handler_registration_fails_fast (c : Controller) (f : Handler) :
  (∀ r1 r2 r3 err,
     registries c = [r1; r2; r3] →
     serviceregistry.AppendServiceHandler r1 f = None →
     serviceregistry.AppendServiceHandler r2 f = Some err →
     aggregate.AppendServiceHandler c f = ([(0, f); (1, f)], Some err))
  ∧ (∀ r1 r2 r3 err,
     registries c = [r1; r2; r3] →
     serviceregistry.AppendInstanceHandler r1 f = None →
     serviceregistry.AppendInstanceHandler r2 f = Some err →
     aggregate.AppendInstanceHandler c f = ([(0, f); (1, f)], Some err))
  ∧ (Forall (λ r, serviceregistry.AppendServiceHandler r f = None) (registries c) →
     aggregate.AppendServiceHandler c f
     = (callsTo 0 (length (registries c)) f, None))
  ∧ (Forall (λ r, serviceregistry.AppendInstanceHandler r f = None) (registries c) →
     aggregate.AppendInstanceHandler c f
     = (callsTo 0 (length (registries c)) f, None)).
Proof.
  unfold aggregate.AppendServiceHandler, aggregate.AppendInstanceHandler,
    GetRegistries.
  split; [|split; [|split]].
  - intros r1 r2 r3 err -> H1 H2.
    apply (appendServiceHandlerFrom_fails f [r1] r2 [r3] err 0 []); auto.
  - intros r1 r2 r3 err -> H1 H2.
    apply (appendInstanceHandlerFrom_fails f [r1] r2 [r3] err 0 []); auto.
  - intros H. by rewrite appendServiceHandlerFrom_ok.
  - intros H. by rewrite appendInstanceHandlerFrom_ok.
Qed.

(** ** Running computations on the store *)

Section Run.

Context {A B : Type}.
Implicit Types (h : Heap) (p l : loc).

Lemma bind_run (m : M A) (f : A → M B) h a h' :
  m h = Done a h' → (m ≫= f) h = f a h'.
Proof. intros H. unfold mbind, M_bind. by rewrite H. Qed.

Lemma bind_Done (m : M A) (f : A → M B) h b h'' :
  (m ≫= f) h = Done b h'' ↔ ∃ a h', m h = Done a h' ∧ f a h' = Done b h''.
Proof.
  unfold mbind, M_bind. destruct (m h) as [a h'|e]; split.
  - eauto.
  - by intros (?&?&[= <- <-]&?).
  - done.
  - by intros (?&?&?&?).
Qed.

Lemma ret_Done (a a' : A) h h' :
  (mret a : M A) h = Done a' h' ↔ a' = a ∧ h' = h.
Proof. unfold mret, M_ret. split; [by intros [= <- <-] | by intros [-> ->]]. Qed.

End Run.

Section Primitives.

Implicit Types (h : Heap) (p l : loc) (o : Object).

Lemma load_Done p h o h' : load p h = Done o h' ↔ h !! p = Some o ∧ h' = h.
Proof.
  unfold load. destruct (h !! p); split; try done.
  - by intros [= <- <-].
  - by intros [[= <-] ->].
  - by intros [? _].
Qed.

Lemma store_Done p o h u h' :
  store p o h = Done u h' ↔ is_Some (h !! p) ∧ h' = <[p:=o]> h.
Proof.
  unfold store. destruct (h !! p) eqn:E; split; try done.
  - intros [= _ <-]. eauto.
  - intros [_ ->]. by destruct u.
  - by intros [[? ?] _].
Qed.

Lemma alloc_Done o h l h' : alloc o h = Done l h' ↔ l = length h ∧ h' = h ++ [o].
Proof. unfold alloc. split; [by intros [= <- <-] | by intros [-> ->]]. Qed.

Lemma loadService_Done p h s h' :
  loadService p h = Done s h' ↔ h !! p = Some (ObjService s) ∧ h' = h.
Proof.
  unfold loadService. rewrite bind_Done. split.
  - intros (o & h1 & [Ho ->]%load_Done & Hk).
    destruct o; try done. by apply ret_Done in Hk as [-> ->].
  - intros [Hp ->]. exists (ObjService s), h. by rewrite load_Done.
Qed.

Lemma loadVIPs_Done p h m h' :
  loadVIPs p h = Done m h' ↔ h !! p = Some (ObjVIPs m) ∧ h' = h.
Proof.
  unfold loadVIPs. rewrite bind_Done. split.
  - intros (o & h1 & [Ho ->]%load_Done & Hk).
    destruct o; try done. by apply ret_Done in Hk as [-> ->].
  - intros [Hp ->]. exists (ObjVIPs m), h. by rewrite load_Done.
Qed.

Lemma loadExternalAddresses_Done p h m h' :
  loadExternalAddresses p h = Done m h'
  ↔ h !! p = Some (ObjExternalAddresses m) ∧ h' = h.
Proof.
  unfold loadExternalAddresses. rewrite bind_Done. split.
  - intros (o & h1 & [Ho ->]%load_Done & Hk).
    destruct o; try done. by apply ret_Done in Hk as [-> ->].
  - intros [Hp ->]. exists (ObjExternalAddresses m), h. by rewrite load_Done.
Qed.

Lemma loadExternalPorts_Done p h m h' :
  loadExternalPorts p h = Done m h'
  ↔ h !! p = Some (ObjExternalPorts m) ∧ h' = h.
Proof.
  unfold loadExternalPorts. rewrite bind_Done. split.
  - intros (o & h1 & [Ho ->]%load_Done & Hk).
    destruct o; try done. by apply ret_Done in Hk as [-> ->].
  - intros [Hp ->]. exists (ObjExternalPorts m), h. by rewrite load_Done.
Qed.

Lemma loadStrings_Done p h xs h' :
  loadStrings p h = Done xs h' ↔ h !! p = Some (ObjStrings xs) ∧ h' = h.
Proof.
  unfold loadStrings. rewrite bind_Done. split.
  - intros (o & h1 & [Ho ->]%load_Done & Hk).
    destruct o; try done. by apply ret_Done in Hk as [-> ->].
  - intros [Hp ->]. exists (ObjStrings xs), h. by rewrite load_Done.
Qed.

Lemma loadPortMap_Done p h m h' :
  loadPortMap p h = Done m h' ↔ h !! p = Some (ObjPortMap m) ∧ h' = h.
Proof.
  unfold loadPortMap. rewrite bind_Done. split.
  - intros (o & h1 & [Ho ->]%load_Done & Hk).
    destruct o; try done. by apply ret_Done in Hk as [-> ->].
  - intros [Hp ->]. exists (ObjPortMap m), h. by rewrite load_Done.
Qed.

Lemma assignVIP_Done m k v h u h' :
  assignVIP m k v h = Done u h'
  ↔ ∃ l vm, m = Some l ∧ h !! l = Some (ObjVIPs vm)
            ∧ h' = <[l := ObjVIPs (<[k:=v]> vm)]> h.
Proof.
  unfold assignVIP. destruct m as [l|]; [|split; [done | by intros (?&?&?&_)]].
  rewrite bind_Done. split.
  - intros (vm & h1 & [Hl ->]%loadVIPs_Done & [_ ->]%store_Done). eauto.
  - intros (l' & vm & [= <-] & Hl & ->). exists vm, h.
    rewrite loadVIPs_Done, store_Done. eauto.
Qed.

Lemma assignExternalAddresses_Done m k v h u h' :
  assignExternalAddresses m k v h = Done u h'
  ↔ ∃ l am, m = Some l ∧ h !! l = Some (ObjExternalAddresses am)
            ∧ h' = <[l := ObjExternalAddresses (<[k:=v]> am)]> h.
Proof.
  unfold assignExternalAddresses.
  destruct m as [l|]; [|split; [done | by intros (?&?&?&_)]].
  rewrite bind_Done. split.
  - intros (am & h1 & [Hl ->]%loadExternalAddresses_Done & [_ ->]%store_Done). eauto.
  - intros (l' & am & [= <-] & Hl & ->). exists am, h.
    rewrite loadExternalAddresses_Done, store_Done. eauto.
Qed.

Lemma assignExternalPorts_Done m k v h u h' :
  assignExternalPorts m k v h = Done u h'
  ↔ ∃ l pm, m = Some l ∧ h !! l = Some (ObjExternalPorts pm)
            ∧ h' = <[l := ObjExternalPorts (<[k:=v]> pm)]> h.
Proof.
  unfold assignExternalPorts.
  destruct m as [l|]; [|split; [done | by intros (?&?&?&_)]].
  rewrite bind_Done. split.
  - intros (pm & h1 & [Hl ->]%loadExternalPorts_Done & [_ ->]%store_Done). eauto.
  - intros (l' & pm & [= <-] & Hl & ->). exists pm, h.
    rewrite loadExternalPorts_Done, store_Done. eauto.
Qed.

End Primitives.

(** ** How the store evolves *)

Section Grows.

Implicit Types (h : Heap) (n l : nat) (o : Object).

Lemma sameKind_refl o : sameKind o o.
Proof. by destruct o. Qed.

Lemma sameKind_trans o1 o2 o3 : sameKind o1 o2 → sameKind o2 o3 → sameKind o1 o3.
Proof. destruct o1, o2, o3; simpl; try done; congruence. Qed.

Lemma grows_refl n h : grows n h h.
Proof. intros l o Hl. exists o. eauto using sameKind_refl. Qed.

Lemma grows_trans n h1 h2 h3 : grows n h1 h2 → grows n h2 h3 → grows n h1 h3.
Proof.
  intros H12 H23 l o Hl.
  destruct (H12 l o Hl) as (o2 & Hl2 & Hk2 & He2).
  destruct (H23 l o2 Hl2) as (o3 & Hl3 & Hk3 & He3).
  exists o3. split; [done|]. split; [by eapply sameKind_trans|].
  intros Hn. by rewrite He3, He2.
Qed.

Lemma grows_length n h h' : grows n h h' → length h ≤ length h'.
Proof.
  intros H. destruct (decide (length h ≤ length h')) as [|Hlt]; [done|].
  destruct (lookup_lt_is_Some_2 h (length h')) as [o Ho]; [lia|].
  destruct (H _ _ Ho) as (o' & Ho' & _).
  apply lookup_lt_Some in Ho'. lia.
Qed.

Lemma grows_below n h h' l o :
  grows n h h' → l < n → h !! l = Some o → h' !! l = Some o.
Proof. intros H Hn Hl. destruct (H l o Hl) as (o' & Hl' & _ & He). by rewrite Hl', He. Qed.

Lemma grows_service n h h' l s :
  grows n h h' → h !! l = Some (ObjService s) → h' !! l = Some (ObjService s).
Proof.
  intros H Hl. destruct (H l _ Hl) as (o' & Hl' & Hk & _).
  destruct o'; simpl in Hk; try done; congruence.
Qed.

Lemma grows_strings n h h' l xs :
  grows n h h' → h !! l = Some (ObjStrings xs) → h' !! l = Some (ObjStrings xs).
Proof.
  intros H Hl. destruct (H l _ Hl) as (o' & Hl' & Hk & _).
  destruct o'; simpl in Hk; try done; congruence.
Qed.

Lemma grows_portMap n h h' l pm :
  grows n h h' → h !! l = Some (ObjPortMap pm) → h' !! l = Some (ObjPortMap pm).
Proof.
  intros H Hl. destruct (H l _ Hl) as (o' & Hl' & Hk & _).
  destruct o'; simpl in Hk; try done; congruence.
Qed.

Lemma grows_VIPs n h h' l vm :
  grows n h h' → h !! l = Some (ObjVIPs vm) → ∃ vm', h' !! l = Some (ObjVIPs vm').
Proof.
  intros H Hl. destruct (H l _ Hl) as (o' & Hl' & Hk & _).
  destruct o'; simpl in Hk; try done; eauto.
Qed.

Lemma grows_externalAddresses n h h' l am :
  grows n h h' → h !! l = Some (ObjExternalAddresses am) →
  ∃ am', h' !! l = Some (ObjExternalAddresses am').
Proof.
  intros H Hl. destruct (H l _ Hl) as (o' & Hl' & Hk & _).
  destruct o'; simpl in Hk; try done; eauto.
Qed.

Lemma grows_externalPorts n h h' l pm :
  grows n h h' → h !! l = Some (ObjExternalPorts pm) →
  ∃ pm', h' !! l = Some (ObjExternalPorts pm').
Proof.
  intros H Hl. destruct (H l _ Hl) as (o' & Hl' & Hk & _).
  destruct o'; simpl in Hk; try done; eauto.
Qed.

Lemma grows_alloc n h o : grows n h (h ++ [o]).
Proof.
  intros l o' Hl. exists o'. split; [by apply lookup_app_l_Some|].
  eauto using sameKind_refl.
Qed.

Lemma grows_store n h l o o' :
  h !! l = Some o → sameKind o o' → n ≤ l → grows n h (<[l:=o']> h).
Proof.
  intros Hl Hk Hn l0 o0 Hl0. destruct (decide (l0 = l)) as [->|Hne].
  - exists o'. rewrite list_lookup_insert_eq by (by eapply lookup_lt_Some).
    assert (o0 = o) as -> by congruence. split; [done|]. split; [done|lia].
  - exists o0. rewrite list_lookup_insert_ne by done. eauto using sameKind_refl.
Qed.

Lemma grows_weaken n n' h h' : n' ≤ n → grows n h h' → grows n' h h'.
Proof.
  intros Hn H l o Hl. destruct (H l o Hl) as (o' & ? & ? & He).
  exists o'. split; [done|]. split; [done|]. intros ?. apply He. lia.
Qed.

Lemma canonical_grows n h h' q s :
  grows n h h' → canonical n h q s → canonical n h' q s.
Proof.
  intros Hg [Hn Hq Hv Ha Hp]. split; [done | by eapply grows_service | | |].
  - intros l Hl. destruct (Hv l Hl) as [? [vm ?]]. split; [done|].
    by eapply grows_VIPs.
  - intros l Hl. destruct (Ha l Hl) as [? [am ?]]. split; [done|].
    by eapply grows_externalAddresses.
  - intros l Hl. destruct (Hp l Hl) as [? [pm ?]]. split; [done|].
    by eapply grows_externalPorts.
Qed.

End Grows.

(** ** Deep copies *)

Section CopyEntries.

Implicit Types (h : Heap) (a : option loc).

Variable cp : option loc → M (option loc).
Variable valid : Heap → option loc → Prop.

Hypothesis cp_prefix : ∀ a h a' h', cp a h = Done a' h' → h `prefix_of` h'.
Hypothesis cp_total : ∀ a h, valid h a → ∃ a' h', cp a h = Done a' h'.
Hypothesis valid_mono : ∀ a h h', valid h a → h `prefix_of` h' → valid h' a.

Lemma copyEntries_prefix kvs h kvs' h' :
  copyEntries cp kvs h = Done kvs' h' → h `prefix_of` h'.
Proof.
  revert h kvs' h'. induction kvs as [|[k v] kvs IH]; intros h kvs' h'; simpl.
  - by intros [_ ->]%ret_Done.
  - intros (v' & h1 & Hv & (rest & h2 & Hrest & [_ ->]%ret_Done)%bind_Done)%bind_Done.
    etrans; [by eapply cp_prefix | by eapply IH].
Qed.

Lemma copyEntries_total kvs h :
  Forall (λ kv, valid h kv.2) kvs → ∃ kvs' h', copyEntries cp kvs h = Done kvs' h'.
Proof.
  revert h. induction kvs as [|[k v] kvs IH]; intros h Hall; simpl.
  - by eexists _, _.
  - apply Forall_cons in Hall as [Hv Hall]. simpl in Hv.
    destruct (cp_total v h Hv) as (v' & h1 & Hcp).
    destruct (IH h1) as (rest & h2 & Hrest).
    { eapply Forall_impl; [exact Hall|]. intros kv Hkv.
      eapply valid_mono; [exact Hkv | by eapply cp_prefix]. }
    exists ((k, v') :: rest), h2.
    rewrite (bind_run _ _ _ _ _ Hcp), (bind_run _ _ _ _ _ Hrest). done.
Qed.

End CopyEntries.

Section DeepCopy.

Implicit Types (h : Heap) (a m : option loc) (s : Service).

Lemma prefix_snoc h (o : Object) : h `prefix_of` h ++ [o].
Proof. by apply prefix_app_r. Qed.

Lemma prefix_grows n h h' : h `prefix_of` h' → grows n h h'.
Proof.
  intros Hp l o Hl. exists o. split; [by eapply prefix_lookup_Some|].
  eauto using sameKind_refl.
Qed.

Lemma lookup_snoc h (o : Object) : (h ++ [o]) !! length h = Some o.
Proof. by rewrite lookup_app_r, Nat.sub_diag by lia. Qed.

Lemma copyStrings_prefix a h a' h' : copyStrings a h = Done a' h' → h `prefix_of` h'.
Proof.
  destruct a as [l|]; simpl; [|by intros [_ ->]%ret_Done].
  intros (xs & h1 & [_ ->]%loadStrings_Done
          & (l' & h2 & [_ ->]%alloc_Done & [_ ->]%ret_Done)%bind_Done)%bind_Done.
  apply prefix_snoc.
Qed.

Lemma copyPortMap_prefix a h a' h' : copyPortMap a h = Done a' h' → h `prefix_of` h'.
Proof.
  destruct a as [l|]; simpl; [|by intros [_ ->]%ret_Done].
  intros (xs & h1 & [_ ->]%loadPortMap_Done
          & (l' & h2 & [_ ->]%alloc_Done & [_ ->]%ret_Done)%bind_Done)%bind_Done.
  apply prefix_snoc.
Qed.

Lemma copyStrings_total a h : validStrings h a → ∃ a' h', copyStrings a h = Done a' h'.
Proof.
  destruct a as [l|]; simpl; [|by eexists _, _].
  intros Hv. destruct (Hv l eq_refl) as [xs Hl].
  assert (Hld : loadStrings l h = Done xs h) by by apply loadStrings_Done.
  eexists _, _. rewrite (bind_run _ _ _ _ _ Hld). reflexivity.
Qed.

Lemma copyPortMap_total a h : validPortMap h a → ∃ a' h', copyPortMap a h = Done a' h'.
Proof.
  destruct a as [l|]; simpl; [|by eexists _, _].
  intros Hv. destruct (Hv l eq_refl) as [pm Hl].
  assert (Hld : loadPortMap l h = Done pm h) by by apply loadPortMap_Done.
  eexists _, _. rewrite (bind_run _ _ _ _ _ Hld). reflexivity.
Qed.

Lemma validStrings_mono a h h' : validStrings h a → h `prefix_of` h' → validStrings h' a.
Proof.
  intros Hv Hp l Hl. destruct (Hv l Hl) as [xs Hxs].
  exists xs. by eapply prefix_lookup_Some.
Qed.

Lemma validPortMap_mono a h h' : validPortMap h a → h `prefix_of` h' → validPortMap h' a.
Proof.
  intros Hv Hp l Hl. destruct (Hv l Hl) as [xs Hxs].
  exists xs. by eapply prefix_lookup_Some.
Qed.

(** What each of the three map copies returns. *)
Lemma copyVIPs_Done m h m' h' :
  copyVIPs m h = Done m' h' →
  h `prefix_of` h' ∧ newVIPs (length h) h' m'
  ∧ match m with
    | None => m' = None
    | Some l => ∃ l' vm, m' = Some l' ∧ h !! l = Some (ObjVIPs vm)
                         ∧ h' !! l' = Some (ObjVIPs vm)
    end.
Proof.
  destruct m as [l|]; simpl.
  - intros (vm & h1 & [Hl ->]%loadVIPs_Done
            & (l' & h2 & [-> ->]%alloc_Done & [-> ->]%ret_Done)%bind_Done)%bind_Done.
    split; [apply prefix_snoc|]. split.
    + intros ? [= <-]. split; [done|]. exists vm. apply lookup_snoc.
    + exists (length h), vm. by rewrite lookup_snoc.
  - intros [-> ->]%ret_Done. split; [done|]. split; [by intros ? ?|done].
Qed.

Lemma copyExternalAddresses_Done m h m' h' :
  copyExternalAddresses m h = Done m' h' →
  h `prefix_of` h' ∧ newExternalAddresses (length h) h' m' ∧ (m = None ↔ m' = None).
Proof.
  destruct m as [l|]; simpl.
  - intros (am & h1 & [Hl ->]%loadExternalAddresses_Done
            & (kvs & h2 & Hkvs
               & (l' & h3 & [-> ->]%alloc_Done & [-> ->]%ret_Done)%bind_Done)%bind_Done)%bind_Done.
    apply (copyEntries_prefix _ copyStrings_prefix) in Hkvs.
    split; [etrans; [exact Hkvs | apply prefix_snoc]|]. split; [|done].
    intros ? [= <-]. split; [by apply prefix_length|].
    eexists. apply lookup_snoc.
  - intros [-> ->]%ret_Done. split; [done|]. split; [by intros ? ?|done].
Qed.

Lemma copyExternalPorts_Done m h m' h' :
  copyExternalPorts m h = Done m' h' →
  h `prefix_of` h' ∧ newExternalPorts (length h) h' m' ∧ (m = None ↔ m' = None).
Proof.
  destruct m as [l|]; simpl.
  - intros (am & h1 & [Hl ->]%loadExternalPorts_Done
            & (kvs & h2 & Hkvs
               & (l' & h3 & [-> ->]%alloc_Done & [-> ->]%ret_Done)%bind_Done)%bind_Done)%bind_Done.
    apply (copyEntries_prefix _ copyPortMap_prefix) in Hkvs.
    split; [etrans; [exact Hkvs | apply prefix_snoc]|]. split; [|done].
    intros ? [= <-]. split; [by apply prefix_length|].
    eexists. apply lookup_snoc.
  - intros [-> ->]%ret_Done. split; [done|]. split; [by intros ? ?|done].
Qed.

Lemma newVIPs_mono n n' h h' m :
  newVIPs n h m → n' ≤ n → h `prefix_of` h' → newVIPs n' h' m.
Proof.
  intros H Hn Hp l Hl. destruct (H l Hl) as [? [vm Hvm]].
  split; [lia|]. exists vm. by eapply prefix_lookup_Some.
Qed.

Lemma newExternalAddresses_mono n n' h h' m :
  newExternalAddresses n h m → n' ≤ n → h `prefix_of` h' →
  newExternalAddresses n' h' m.
Proof.
  intros H Hn Hp l Hl. destruct (H l Hl) as [? [am Ham]].
  split; [lia|]. exists am. by eapply prefix_lookup_Some.
Qed.

Lemma newExternalPorts_mono n n' h h' m :
  newExternalPorts n h m → n' ≤ n → h `prefix_of` h' →
  newExternalPorts n' h' m.
Proof.
  intros H Hn Hp l Hl. destruct (H l Hl) as [? [pm Hpm]].
  split; [lia|]. exists pm. by eapply prefix_lookup_Some.
Qed.

(** [DeepCopy] only allocates; its result is a new service object with new
    maps, a copy of the one it was given. *)
Lemma DeepCopy_Done p h q h' :
  DeepCopy p h = Done q h' →
  ∃ s s', h !! p = Some (ObjService s) ∧ h `prefix_of` h'
          ∧ canonical (length h) h' q s' ∧ copyOf h h' s s'.
Proof.
  unfold DeepCopy.
  intros (s & h0 & [Hp ->]%loadService_Done
          & (vips & h1 & Hvips
             & (addrs & h2 & Haddrs
                & (ports & h3 & Hports
                   & [-> ->]%alloc_Done)%bind_Done)%bind_Done)%bind_Done)%bind_Done.
  apply copyVIPs_Done in Hvips as (P1 & Nv & Cv).
  apply copyExternalAddresses_Done in Haddrs as (P2 & Na & Ca).
  apply copyExternalPorts_Done in Hports as (P3 & Np & Cp).
  pose proof (prefix_length _ _ P1). pose proof (prefix_length _ _ P2).
  pose proof (prefix_length _ _ P3).
  assert (P3' : h3 `prefix_of` h3 ++ [ObjService
    {| Hostname := Hostname s; model.Address := model.Address s;
       ClusterVIPs := vips;
       Attributes := {| ClusterExternalAddresses := addrs;
                        ClusterExternalPorts := ports |} |}])
    by apply prefix_snoc.
  eexists s, _. split; [done|]. split; [by repeat (etrans; [eassumption|])|].
  split; [split; simpl|split; simpl].
  - lia.
  - apply lookup_snoc.
  - eapply newVIPs_mono; [exact Nv | lia |]. by repeat (etrans; [eassumption|]).
  - eapply newExternalAddresses_mono; [exact Na | lia |].
    by repeat (etrans; [eassumption|]).
  - eapply newExternalPorts_mono; [exact Np | lia | done].
  - done.
  - done.
  - destruct (ClusterVIPs s) as [l|]; [|done].
    destruct Cv as (l' & vm & -> & Hl & Hl'). exists l', vm.
    split; [done|]. split; [done|].
    eapply prefix_lookup_Some; [exact Hl'|]. by repeat (etrans; [eassumption|]).
  - done.
  - done.
Qed.

Lemma copyVIPs_total m h :
  (∀ l, m = Some l → ∃ vm, h !! l = Some (ObjVIPs vm)) →
  ∃ m' h', copyVIPs m h = Done m' h'.
Proof.
  destruct m as [l|]; simpl; [|by eexists _, _].
  intros Hv. destruct (Hv l eq_refl) as [vm Hl].
  assert (Hld : loadVIPs l h = Done vm h) by by apply loadVIPs_Done.
  eexists _, _. rewrite (bind_run _ _ _ _ _ Hld). reflexivity.
Qed.

Lemma copyExternalAddresses_total m h :
  (∀ l, m = Some l →
     ∃ am, h !! l = Some (ObjExternalAddresses am)
           ∧ ∀ k a, am !! k = Some a → validStrings h a) →
  ∃ m' h', copyExternalAddresses m h = Done m' h'.
Proof.
  destruct m as [l|]; simpl; [|by eexists _, _].
  intros Hv. destruct (Hv l eq_refl) as (am & Hl & Hvals).
  assert (Hld : loadExternalAddresses l h = Done am h)
    by by apply loadExternalAddresses_Done.
  destruct (copyEntries_total copyStrings validStrings copyStrings_prefix
              copyStrings_total validStrings_mono (map_to_list am) h)
    as (kvs & h1 & Hkvs).
  { apply Forall_forall. intros [k a] Hin%elem_of_map_to_list. by eapply Hvals. }
  eexists _, _.
  rewrite (bind_run _ _ _ _ _ Hld), (bind_run _ _ _ _ _ Hkvs). reflexivity.
Qed.

Lemma copyExternalPorts_total m h :
  (∀ l, m = Some l →
     ∃ pm, h !! l = Some (ObjExternalPorts pm)
           ∧ ∀ k a, pm !! k = Some a → validPortMap h a) →
  ∃ m' h', copyExternalPorts m h = Done m' h'.
Proof.
  destruct m as [l|]; simpl; [|by eexists _, _].
  intros Hv. destruct (Hv l eq_refl) as (pm & Hl & Hvals).
  assert (Hld : loadExternalPorts l h = Done pm h)
    by by apply loadExternalPorts_Done.
  destruct (copyEntries_total copyPortMap validPortMap copyPortMap_prefix
              copyPortMap_total validPortMap_mono (map_to_list pm) h)
    as (kvs & h1 & Hkvs).
  { apply Forall_forall. intros [k a] Hin%elem_of_map_to_list. by eapply Hvals. }
  eexists _, _.
  rewrite (bind_run _ _ _ _ _ Hld), (bind_run _ _ _ _ _ Hkvs). reflexivity.
Qed.

Lemma validService_mono h h' s :
  validService h s → h `prefix_of` h' → validService h' s.
Proof.
  intros [Hv Ha Hp] Hpre. split.
  - intros l Hl. destruct (Hv l Hl) as [vm ?]. exists vm.
    by eapply prefix_lookup_Some.
  - intros l Hl. destruct (Ha l Hl) as (am & ? & Hvals). exists am.
    split; [by eapply prefix_lookup_Some|].
    intros k a Hk. eapply validStrings_mono; [by eapply Hvals | done].
  - intros l Hl. destruct (Hp l Hl) as (pm & ? & Hvals). exists pm.
    split; [by eapply prefix_lookup_Some|].
    intros k a Hk. eapply validPortMap_mono; [by eapply Hvals | done].
Qed.

(** On a service whose references are valid, [DeepCopy] does not panic. *)
Lemma DeepCopy_total p h s :
  h !! p = Some (ObjService s) → validService h s →
  ∃ q h', DeepCopy p h = Done q h'.
Proof.
  intros Hp Hs. unfold DeepCopy.
  assert (Hld : loadService p h = Done s h) by by apply loadService_Done.
  rewrite (bind_run _ _ _ _ _ Hld).
  destruct (copyVIPs_total (ClusterVIPs s) h) as (vips & h1 & Hvips);
    [by apply Hs|].
  rewrite (bind_run _ _ _ _ _ Hvips).
  pose proof (copyVIPs_Done _ _ _ _ Hvips) as (P1 & _).
  pose proof (validService_mono _ _ _ Hs P1) as Hs1.
  destruct (copyExternalAddresses_total
              (ClusterExternalAddresses (Attributes s)) h1)
    as (addrs & h2 & Haddrs); [by apply Hs1|].
  rewrite (bind_run _ _ _ _ _ Haddrs).
  pose proof (copyExternalAddresses_Done _ _ _ _ Haddrs) as (P2 & _).
  pose proof (validService_mono _ _ _ Hs1 P2) as Hs2.
  destruct (copyExternalPorts_total
              (ClusterExternalPorts (Attributes s)) h2)
    as (ports & h3 & Hports); [by apply Hs2|].
  rewrite (bind_run _ _ _ _ _ Hports).
  by eexists _, _.
Qed.

End DeepCopy.

(** ** Merging one sighting into a canonical copy *)

Section Merge.

Implicit Types (h : Heap) (n : nat) (sp s l : loc) (m : option loc).

Variable cluster : string.

(** A step either leaves the store alone or replaces one of the copy's two
    external maps by an extended one. *)
Lemma mergeExternalAddresses_Done n h sp dst m u h' :
  canonical n h sp dst →
  mergeExternalAddresses cluster sp m h = Done u h' →
  h' = h ∨ ∃ ld am v, n ≤ ld ∧ h !! ld = Some (ObjExternalAddresses am)
                      ∧ h' = <[ld := ObjExternalAddresses (<[cluster:=v]> am)]> h.
Proof.
  intros Hc. destruct m as [l|]; simpl; [|intros [_ ->]%ret_Done; by left].
  intros (am & h1 & [_ ->]%loadExternalAddresses_Done
          & (dst' & h2 & [Hsp ->]%loadService_Done
             & (ld & dm & Hld & Hdm & ->)%assignExternalAddresses_Done)%bind_Done)%bind_Done.
  right. rewrite (canonical_service _ _ _ _ Hc) in Hsp. injection Hsp as <-.
  destruct (canonical_addresses _ _ _ _ Hc ld Hld) as [? _]. eauto 10.
Qed.

Lemma mergeExternalPorts_Done n h sp dst m u h' :
  canonical n h sp dst →
  mergeExternalPorts cluster sp m h = Done u h' →
  h' = h ∨ ∃ ld pm v, n ≤ ld ∧ h !! ld = Some (ObjExternalPorts pm)
                      ∧ h' = <[ld := ObjExternalPorts (<[cluster:=v]> pm)]> h.
Proof.
  intros Hc. destruct m as [l|]; simpl; [|intros [_ ->]%ret_Done; by left].
  intros (pm & h1 & [_ ->]%loadExternalPorts_Done
          & (dst' & h2 & [Hsp ->]%loadService_Done
             & (ld & dm & Hld & Hdm & ->)%assignExternalPorts_Done)%bind_Done)%bind_Done.
  right. rewrite (canonical_service _ _ _ _ Hc) in Hsp. injection Hsp as <-.
  destruct (canonical_ports _ _ _ _ Hc ld Hld) as [? _]. eauto 10.
Qed.

Lemma mergeExternalAddresses_total n h sp dst m :
  canonical n h sp dst →
  (∀ l, m = Some l →
     (∃ am, h !! l = Some (ObjExternalAddresses am))
     ∧ ClusterExternalAddresses (Attributes dst) ≠ None) →
  ∃ h', mergeExternalAddresses cluster sp m h = Done tt h'.
Proof.
  intros Hc Hm. destruct m as [l|]; simpl; [|by eexists].
  destruct (Hm l eq_refl) as [[am Ham] Hdst].
  destruct (ClusterExternalAddresses (Attributes dst)) as [ld|] eqn:Hld; [|done].
  destruct (canonical_addresses _ _ _ _ Hc ld Hld) as [_ [dm Hdm]].
  assert (H1 : loadExternalAddresses l h = Done am h)
    by by apply loadExternalAddresses_Done.
  assert (H2 : loadService sp h = Done dst h)
    by (apply loadService_Done; split; [apply Hc | done]).
  eexists. rewrite (bind_run _ _ _ _ _ H1), (bind_run _ _ _ _ _ H2), Hld.
  apply assignExternalAddresses_Done. eauto.
Qed.

Lemma mergeExternalPorts_total n h sp dst m :
  canonical n h sp dst →
  (∀ l, m = Some l →
     (∃ pm, h !! l = Some (ObjExternalPorts pm))
     ∧ ClusterExternalPorts (Attributes dst) ≠ None) →
  ∃ h', mergeExternalPorts cluster sp m h = Done tt h'.
Proof.
  intros Hc Hm. destruct m as [l|]; simpl; [|by eexists].
  destruct (Hm l eq_refl) as [[pm Hpm] Hdst].
  destruct (ClusterExternalPorts (Attributes dst)) as [ld|] eqn:Hld; [|done].
  destruct (canonical_ports _ _ _ _ Hc ld Hld) as [_ [dm Hdm]].
  assert (H1 : loadExternalPorts l h = Done pm h)
    by by apply loadExternalPorts_Done.
  assert (H2 : loadService sp h = Done dst h)
    by (apply loadService_Done; split; [apply Hc | done]).
  eexists. rewrite (bind_run _ _ _ _ _ H1), (bind_run _ _ _ _ _ H2), Hld.
  apply assignExternalPorts_Done. eauto.
Qed.

(** Replacing an external map keeps the store's shape and every map of
    cluster addresses. *)
Lemma external_step n h h' :
  (h' = h
   ∨ (∃ ld am v, n ≤ ld ∧ h !! ld = Some (ObjExternalAddresses am)
                 ∧ h' = <[ld := ObjExternalAddresses (<[cluster:=v]> am)]> h)
   ∨ (∃ ld pm v, n ≤ ld ∧ h !! ld = Some (ObjExternalPorts pm)
                 ∧ h' = <[ld := ObjExternalPorts (<[cluster:=v]> pm)]> h)) →
  grows n h h' ∧ keepsVIPs h h'.
Proof.
  intros [->|[(ld & am & v & Hn & Hld & ->)|(ld & pm & v & Hn & Hld & ->)]].
  - split; [apply grows_refl | by intros ? ?].
  - split; [by eapply grows_store|].
    intros l vm Hl. rewrite list_lookup_insert_ne; [done|].
    intros ->. rewrite Hld in Hl. done.
  - split; [by eapply grows_store|].
    intros l vm Hl. rewrite list_lookup_insert_ne; [done|].
    intros ->. rewrite Hld in Hl. done.
Qed.

(** What a completed merge has done: the copy's map of cluster addresses
    has the sighting's address under its cluster. *)
Lemma mergeClusterMaps_Done n h sp s dst u h' :
  canonical n h sp dst →
  mergeClusterMaps cluster sp s h = Done u h' →
  ∃ src lv vm,
    h !! s = Some (ObjService src)
    ∧ ClusterVIPs dst = Some lv
    ∧ h !! lv = Some (ObjVIPs vm)
    ∧ h' !! lv = Some (ObjVIPs (<[cluster := model.Address src]> vm))
    ∧ grows n h h'
    ∧ (∀ l vm0, l ≠ lv → h !! l = Some (ObjVIPs vm0) → h' !! l = Some (ObjVIPs vm0)).
Proof.
  intros Hc. unfold mergeClusterMaps.
  intros (src & h0 & [Hs ->]%loadService_Done
          & (u1 & h1 & HA
             & (u2 & h2 & HP
                & (dst' & h3 & [Hsp ->]%loadService_Done
                   & (lv & vm2 & Hlv & Hvm2 & ->)%assignVIP_Done)%bind_Done)%bind_Done)%bind_Done)%bind_Done.
  apply (mergeExternalAddresses_Done _ _ _ _ _ _ _ Hc) in HA.
  destruct (external_step n h h1) as [G1 K1]; [tauto|].
  pose proof (canonical_grows _ _ _ _ _ G1 Hc) as Hc1.
  apply (mergeExternalPorts_Done _ _ _ _ _ _ _ Hc1) in HP.
  destruct (external_step n h1 h2) as [G2 K2]; [tauto|].
  pose proof (canonical_grows _ _ _ _ _ G2 Hc1) as Hc2.
  rewrite (canonical_service _ _ _ _ Hc2) in Hsp. injection Hsp as <-.
  destruct (canonical_vips _ _ _ _ Hc lv Hlv) as [Hn [vm Hvm]].
  pose proof (K2 _ _ (K1 _ _ Hvm)) as Hvm'.
  rewrite Hvm' in Hvm2. injection Hvm2 as <-.
  exists src, lv, vm. split; [done|]. split; [done|]. split; [done|].
  split; [by rewrite list_lookup_insert_eq by (by eapply lookup_lt_Some)|].
  split.
  - eapply grows_trans; [exact G1|]. eapply grows_trans; [exact G2|].
    by eapply grows_store.
  - intros l vm0 Hne Hl. rewrite list_lookup_insert_ne by done. by apply K2, K1.
Qed.

Lemma mergeClusterMaps_total n h sp s src dst :
  h !! s = Some (ObjService src) →
  canonical n h sp dst →
  ClusterVIPs dst ≠ None →
  (∀ l, ClusterExternalAddresses (Attributes src) = Some l →
     (∃ am, h !! l = Some (ObjExternalAddresses am))
     ∧ ClusterExternalAddresses (Attributes dst) ≠ None) →
  (∀ l, ClusterExternalPorts (Attributes src) = Some l →
     (∃ pm, h !! l = Some (ObjExternalPorts pm))
     ∧ ClusterExternalPorts (Attributes dst) ≠ None) →
  ∃ h', mergeClusterMaps cluster sp s h = Done tt h'.
Proof.
  intros Hs Hc Hv HA HP. unfold mergeClusterMaps.
  assert (H0 : loadService s h = Done src h) by by apply loadService_Done.
  rewrite (bind_run _ _ _ _ _ H0).
  destruct (mergeExternalAddresses_total n h sp dst _ Hc HA) as [h1 H1].
  rewrite (bind_run _ _ _ _ _ H1).
  pose proof (mergeExternalAddresses_Done _ _ _ _ _ _ _ Hc H1) as S1.
  destruct (external_step n h h1) as [G1 K1]; [tauto|].
  pose proof (canonical_grows _ _ _ _ _ G1 Hc) as Hc1.
  destruct (mergeExternalPorts_total n h1 sp dst
              (ClusterExternalPorts (Attributes src)) Hc1) as [h2 H2].
  { intros l Hl. destruct (HP l Hl) as [[pm Hpm] ?]. split; [|done].
    by eapply grows_externalPorts. }
  rewrite (bind_run _ _ _ _ _ H2).
  pose proof (mergeExternalPorts_Done _ _ _ _ _ _ _ Hc1 H2) as S2.
  destruct (external_step n h1 h2) as [G2 K2]; [tauto|].
  pose proof (canonical_grows _ _ _ _ _ G2 Hc1) as Hc2.
  assert (H3 : loadService sp h2 = Done dst h2)
    by (apply loadService_Done; split; [apply Hc2 | done]).
  rewrite (bind_run _ _ _ _ _ H3).
  destruct (ClusterVIPs dst) as [lv|] eqn:Hlv; [|done].
  destruct (canonical_vips _ _ _ _ Hc2 lv Hlv) as [_ [vm Hvm]].
  eexists. apply assignVIP_Done. eauto.
Qed.

End Merge.

(** ** A pass over the members *)

Section Pass.

Implicit Types (h : Heap) (st : merged) (r : Instance) (rs : list Instance).

Variable rs0 : list Instance.
Variable h0 : Heap.

Lemma canonical_weaken n n' h q s : canonical n h q s → n' ≤ n → canonical n' h q s.
Proof.
  intros [Hn Hq Hv Ha Hp] Hle. split; [lia | done | | |].
  - intros l Hl. destruct (Hv l Hl). split; [lia | done].
  - intros l Hl. destruct (Ha l Hl). split; [lia | done].
  - intros l Hl. destruct (Hp l Hl). split; [lia | done].
Qed.

Lemma passInv_grows h h' st :
  passInv rs0 h0 h st → grows (length h0) h h' → passInv rs0 h0 h' st.
Proof.
  intros [Hg Hc Hs] Hg'. split; [by eapply grows_trans | | done].
  intros host q Hq. destruct (Hc host q Hq) as [sq Hsq].
  exists sq. by eapply canonical_grows.
Qed.

Lemma sightService_Done cluster st s h st' h' :
  passInv rs0 h0 h st →
  sightService cluster st s h = Done st' h' →
  passInv rs0 h0 h' st' ∧ errs st' = errs st.
Proof.
  intros Hinv. unfold sightService.
  intros (svc & h1 & [Hs ->]%loadService_Done
          & ([sp st1] & h2 & Hfind
             & (u & h3 & Hmerge & [-> ->]%ret_Done)%bind_Done)%bind_Done)%bind_Done.
  destruct (smap st !! Hostname svc) as [sp'|] eqn:Hlook.
  - apply ret_Done in Hfind as [[= -> ->] ->].
    destruct (pass_canonical _ _ _ _ Hinv _ _ Hlook) as [sq Hsq].
    destruct (mergeClusterMaps_Done _ _ _ _ _ _ _ _ Hsq Hmerge)
      as (_ & _ & _ & _ & _ & _ & _ & Hg & _).
    split; [by eapply passInv_grows | done].
  - apply bind_Done in Hfind as (q & h4 & Hcopy & [[= -> ->] ->]%ret_Done).
    destruct (DeepCopy_Done _ _ _ _ Hcopy) as (s0 & s' & _ & Hpre & Hcan & _).
    pose proof (grows_length _ _ _ (pass_grows _ _ _ _ Hinv)) as Hlen.
    pose proof (canonical_weaken _ (length h0) _ _ _ Hcan Hlen) as Hcan'.
    destruct (mergeClusterMaps_Done _ _ _ _ _ _ _ _ Hcan' Hmerge)
      as (_ & _ & _ & _ & _ & _ & _ & Hg & _).
    split; [|done].
    assert (Hg2 : grows (length h0) h h3).
    { eapply grows_trans; [by apply prefix_grows | done]. }
    split; simpl.
    + eapply grows_trans; [apply Hinv | done].
    + intros host q'. rewrite lookup_insert. case_decide as Heq.
      * intros [= <-]. exists s'. exact (canonical_grows _ _ _ _ _ Hg Hcan').
      * intros Hq'. destruct (pass_canonical _ _ _ _ Hinv _ _ Hq') as [sq Hsq].
        exists sq. exact (canonical_grows _ _ _ _ _ Hg2 Hsq).
    + intros q' [Hq'|Hq']%elem_of_app.
      * destruct (pass_services _ _ _ _ Hinv _ Hq') as [?|[host Hhost]]; [by left|].
        right. exists host. rewrite lookup_insert_ne; [done|]. congruence.
      * apply list_elem_of_singleton in Hq' as ->. right.
        exists (Hostname svc). by rewrite lookup_insert_eq.
Qed.

Lemma foldM_sightService_Done cluster svcs st h st' h' :
  passInv rs0 h0 h st →
  foldM (sightService cluster) st svcs h = Done st' h' →
  passInv rs0 h0 h' st' ∧ errs st' = errs st.
Proof.
  revert st h. induction svcs as [|s svcs IH]; intros st h Hinv; simpl.
  - by intros [-> ->]%ret_Done.
  - intros (st1 & h1 & Hs & Hrest)%bind_Done.
    destruct (sightService_Done _ _ _ _ _ _ Hinv Hs) as [Hinv1 He1].
    destruct (IH _ _ Hinv1 Hrest) as [Hinv' He']. split; [done | congruence].
Qed.

Lemma mergeRegistry_Done st r h st' h' :
  r ∈ rs0 →
  passInv rs0 h0 h st →
  mergeRegistry st r h = Done st' h' →
  passInv rs0 h0 h' st'.
Proof.
  intros Hin Hinv. unfold mergeRegistry.
  destruct (serviceregistry.Services r) as [svcs [err|]] eqn:E; simpl in *.
  - intros [-> ->]%ret_Done. by destruct Hinv.
  - destruct (decide (Cluster r = "")).
    + intros [-> ->]%ret_Done.
      destruct Hinv as [Hg Hc Hs]. split; simpl; [done | done |].
      intros q [Hq|Hq]%elem_of_app; [by apply Hs|].
      left. exists r. unfold answeredServices. by rewrite E.
    + intros Hrun. by apply foldM_sightService_Done in Hrun as [? _].
Qed.

Lemma foldM_mergeRegistry_Done rs st h st' h' :
  rs ⊆ rs0 →
  passInv rs0 h0 h st →
  foldM mergeRegistry st rs h = Done st' h' →
  passInv rs0 h0 h' st'.
Proof.
  revert st h. induction rs as [|r rs IH]; intros st h Hsub Hinv; simpl.
  - by intros [-> ->]%ret_Done.
  - intros (st1 & h1 & Hr & Hrest)%bind_Done.
    eapply IH; [|eapply mergeRegistry_Done|]; [|apply Hsub; by left|..]; try done.
    intros r' Hr'. apply Hsub. by right.
Qed.

(** The errors a pass returns do not depend on the store. *)
Lemma sightService_errs cluster st s h st' h' :
  sightService cluster st s h = Done st' h' → errs st' = errs st.
Proof.
  unfold sightService.
  intros (svc & h1 & _
          & ([sp st1] & h2 & Hfind
             & (u & h3 & _ & [-> ->]%ret_Done)%bind_Done)%bind_Done)%bind_Done.
  destruct (smap st !! Hostname svc).
  - by apply ret_Done in Hfind as [[= -> ->] ->].
  - by apply bind_Done in Hfind as (q & h4 & _ & [[= -> ->] ->]%ret_Done).
Qed.

Lemma foldM_sightService_errs cluster svcs st h st' h' :
  foldM (sightService cluster) st svcs h = Done st' h' → errs st' = errs st.
Proof.
  revert st h. induction svcs as [|s svcs IH]; intros st h; simpl.
  - by intros [-> ->]%ret_Done.
  - intros (st1 & h1 & Hs & Hrest)%bind_Done.
    rewrite (IH _ _ Hrest). by eapply sightService_errs.
Qed.

Lemma foldM_mergeRegistry_errs rs st h st' h' :
  foldM mergeRegistry st rs h = Done st' h' →
  errs st' = collect (errs st) (servicesErrors rs).
Proof.
  revert st h. induction rs as [|r rs IH]; intros st h; simpl.
  - by intros [-> ->]%ret_Done.
  - intros (st1 & h1 & Hr & Hrest)%bind_Done.
    rewrite (IH _ _ Hrest). f_equal. clear IH Hrest.
    unfold mergeRegistry in Hr.
    destruct (serviceregistry.Services r) as [svcs [err|]]; simpl in *.
    + by apply ret_Done in Hr as [-> ->].
    + destruct (decide (Cluster r = "")).
      * by apply ret_Done in Hr as [-> ->].
      * by eapply foldM_sightService_errs.
Qed.

End Pass.

(** ** Sightings of one hostname *)

Section Sightings.

Implicit Types (h : Heap) (st : merged) (r : Instance) (rs : list Instance)
  (ss : list (string * Service)) (vm : gmap string string).

Lemma assignAll_lookup_notin vm ss k :
  k ∉ ss.*1 → assignAll vm ss !! k = vm !! k.
Proof.
  revert vm. induction ss as [|[c s] ss IH]; intros vm Hk; simpl; [done|].
  rewrite fmap_cons, not_elem_of_cons in Hk. destruct Hk as [Hne Hk]. simpl in Hne.
  rewrite IH by done. by rewrite lookup_insert_ne.
Qed.

Lemma assignAll_lookup_in vm ss c s :
  NoDup ss.*1 → (c, s) ∈ ss → assignAll vm ss !! c = Some (model.Address s).
Proof.
  revert vm. induction ss as [|[c' s'] ss IH]; intros vm Hnd Hin; simpl.
  - by apply elem_of_nil in Hin.
  - rewrite fmap_cons in Hnd. apply NoDup_cons in Hnd as [Hc' Hnd].
    apply elem_of_cons in Hin as [[= <- <-]|Hin].
    + rewrite assignAll_lookup_notin by done. by rewrite lookup_insert_eq.
    + by apply IH.
Qed.

(** With distinct cluster ids, assigning the entries to a map that has no
    key but theirs yields exactly the entries. *)
Lemma assignAll_exact vm ss :
  NoDup ss.*1 →
  (∀ k, is_Some (vm !! k) → k ∈ ss.*1) →
  assignAll vm ss = list_to_map (clusterAddresses ss).
Proof.
  intros Hnd Hkeys. apply map_eq. intros k.
  destruct (decide (k ∈ ss.*1)) as [Hin|Hnin].
  - apply list_elem_of_fmap in Hin as ([c s] & -> & Hin). simpl.
    rewrite (assignAll_lookup_in _ _ _ _ Hnd Hin). symmetry.
    apply elem_of_list_to_map.
    + unfold clusterAddresses. rewrite <- list_fmap_compose.
      by replace (fst ∘ _) with (fst : string * Service → string).
    + unfold clusterAddresses. apply list_elem_of_fmap. by exists (c, s).
  - rewrite assignAll_lookup_notin by done.
    assert (Hnone : (list_to_map (clusterAddresses ss) : gmap string string) !! k = None).
    { apply not_elem_of_list_to_map. unfold clusterAddresses.
      rewrite <- list_fmap_compose.
      by replace (fst ∘ _) with (fst : string * Service → string). }
    rewrite Hnone. destruct (vm !! k) as [v|] eqn:Hv; [|done].
    destruct Hnin. apply Hkeys. by rewrite Hv.
Qed.

Lemma sightService_known cluster st p h s q u h' :
  h !! p = Some (ObjService s) →
  smap st !! Hostname s = Some q →
  mergeClusterMaps cluster q p h = Done u h' →
  sightService cluster st p h = Done st h'.
Proof.
  intros Hp Hq Hm. unfold sightService.
  assert (H0 : loadService p h = Done s h) by by apply loadService_Done.
  rewrite (bind_run _ _ _ _ _ H0), Hq.
  rewrite (bind_run (mret (q, st)) _ h (q, st) h eq_refl).
  by rewrite (bind_run _ _ _ _ _ Hm).
Qed.

Lemma sightService_new cluster st p h s q h1 u h' :
  h !! p = Some (ObjService s) →
  smap st !! Hostname s = None →
  DeepCopy p h = Done q h1 →
  mergeClusterMaps cluster q p h1 = Done u h' →
  sightService cluster st p h
  = Done {| smap := <[Hostname s := q]> (smap st);
            services := services st ++ [q];
            errs := errs st |} h'.
Proof.
  intros Hp Hq Hc Hm. unfold sightService.
  assert (H0 : loadService p h = Done s h) by by apply loadService_Done.
  rewrite (bind_run _ _ _ _ _ H0), Hq.
  rewrite (bind_run (DeepCopy p ≫= _) _ h
             (q, {| smap := <[Hostname s := q]> (smap st);
                    services := services st ++ [q];
                    errs := errs st |}) h1).
  - by rewrite (bind_run _ _ _ _ _ Hm).
  - by rewrite (bind_run _ _ _ _ _ Hc).
Qed.

End Sightings.

(** ** The merged list of services *)

Section ServicesPass.

Implicit Types (h : Heap) (st : merged) (r : Instance) (rs : list Instance)
  (ss : list (string * Service)) (vm : gmap string string).

Variables (h0 : Heap) (hostname : string).

Lemma recordsFor_other h X :
  grows (length h0) h0 h → Forall (otherHost h0 hostname) X →
  recordsFor h hostname X = [].
Proof.
  intros Hg HX. unfold recordsFor. induction HX as [|p X Hp _ IH]; [done|].
  rewrite filter_cons, IH. destruct Hp as (s & Hs & Hne).
  unfold hostnameAt. rewrite (grows_service _ _ _ _ _ Hg Hs).
  destruct (decide _) as [[= ?]|]; done.
Qed.

Lemma recordsFor_one h X Y q sq :
  grows (length h0) h0 h →
  Forall (otherHost h0 hostname) X → Forall (otherHost h0 hostname) Y →
  h !! q = Some (ObjService sq) → Hostname sq = hostname →
  recordsFor h hostname (X ++ q :: Y) = [q].
Proof.
  intros Hg HX HY Hq Hsq.
  pose proof (recordsFor_other h X Hg HX) as EX.
  pose proof (recordsFor_other h Y Hg HY) as EY.
  unfold recordsFor in *. rewrite filter_app, filter_cons, EX, EY.
  unfold hostnameAt. rewrite Hq, Hsq. by destruct (decide _).
Qed.

(** A member without cluster id adds what it lists, or its error. *)
Lemma mergeRegistry_other st r h :
  Cluster r = "" →
  ((serviceregistry.Services r).2 = None →
   Forall (otherHost h0 hostname) (serviceregistry.Services r).1) →
  ∃ st' Y, mergeRegistry st r h = Done st' h
           ∧ smap st' = smap st
           ∧ services st' = services st ++ Y
           ∧ Forall (otherHost h0 hostname) Y.
Proof.
  intros Hr Hother. unfold mergeRegistry.
  destruct (serviceregistry.Services r) as [svcs [err|]]; simpl in *.
  - eexists _, []. split; [reflexivity|]. simpl. by rewrite app_nil_r.
  - destruct (decide (Cluster r = "")); [|done].
    eexists _, svcs. split; [reflexivity|]. simpl. auto.
Qed.

(** The members after the first sighting. *)
Lemma pass_rest rs ss :
  reports h0 hostname rs ss →
  ∀ st h q sq lv vm X Y,
    smap st = {[ hostname := q ]} →
    services st = X ++ q :: Y →
    Forall (otherHost h0 hostname) Y →
    grows (length h0) h0 h →
    canonical (length h0) h q sq →
    ClusterVIPs sq = Some lv →
    h !! lv = Some (ObjVIPs vm) →
    Forall (contributes h0 sq) ss.*2 →
    ∃ st' h' Y',
      foldM mergeRegistry st rs h = Done st' h'
      ∧ services st' = X ++ q :: Y'
      ∧ Forall (otherHost h0 hostname) Y'
      ∧ grows (length h0) h0 h'
      ∧ canonical (length h0) h' q sq
      ∧ h' !! lv = Some (ObjVIPs (assignAll vm ss)).
Proof.
  induction 1 as [|r rs ss Hr Hother _ IH|r rs ss p s Hr Hsvc Hp Hs _ IH];
    intros st h q sq lv vm X Y Hsmap Hsvcs HY Hg Hcan Hlv Hvm Hcontrib.
  - exists st, h, Y. by split_and!.
  - destruct (mergeRegistry_other st r h Hr Hother) as (st1 & Y1 & Hrun & E1 & E2 & HY1).
    destruct (IH st1 h q sq lv vm X (Y ++ Y1)) as (st' & h' & Y' & Hrest & ?);
      try done.
    { congruence. }
    { rewrite E2, Hsvcs, <- app_assoc. done. }
    { by apply Forall_app. }
    exists st', h', Y'. split; [|done].
    simpl. by rewrite (bind_run _ _ _ _ _ Hrun).
  - rewrite fmap_cons in Hcontrib. apply Forall_cons in Hcontrib as [[HA HP] Hcontrib].
    simpl in HA, HP.
    pose proof (grows_service _ _ _ _ _ Hg Hp) as Hp'.
    destruct (mergeClusterMaps_total (Cluster r) (length h0) h q p s sq)
      as [h1 Hmerge]; try done.
    { congruence. }
    { intros l Hl. destruct (HA l Hl) as [[am Ham] ?]. split; [|done].
      by eapply grows_externalAddresses. }
    { intros l Hl. destruct (HP l Hl) as [[pm Hpm] ?]. split; [|done].
      by eapply grows_externalPorts. }
    destruct (mergeClusterMaps_Done _ _ _ _ _ _ _ _ Hcan Hmerge)
      as (src & lv' & vm' & Hsrc & Hlv' & Hvm' & Hnew & Hg1 & _).
    assert (src = s) as -> by congruence.
    assert (lv' = lv) as -> by congruence.
    assert (vm' = vm) as ->.
    { rewrite Hvm in Hvm'. by injection Hvm'. }
    assert (Hsight : sightService (Cluster r) st p h = Done st h1).
    { eapply sightService_known; [done | | done].
      rewrite Hs, Hsmap. apply lookup_singleton_eq. }
    destruct (IH st h1 q sq lv (<[Cluster r := model.Address s]> vm) X Y)
      as (st' & h' & Y' & Hrest & ?); try done.
    { by eapply grows_trans. }
    { by eapply canonical_grows. }
    exists st', h', Y'. split; [|done].
    simpl. unfold mergeRegistry. rewrite Hsvc.
    destruct (decide (Cluster r = "")); [done|].
    simpl. rewrite (bind_run (sightService _ _ _ ≫= _) _ h st h1); [done|].
    by rewrite (bind_run _ _ _ _ _ Hsight).
Qed.

(** The members up to the first sighting, which starts the canonical
    record. *)
Lemma pass_first_split rs ss :
  reports h0 hostname rs ss →
  ∀ c1 s1 ss' st l0 vm0,
    ss = (c1, s1) :: ss' →
    smap st = ∅ →
    Forall (otherHost h0 hostname) (services st) →
    validService h0 s1 →
    ClusterVIPs s1 = Some l0 →
    h0 !! l0 = Some (ObjVIPs vm0) →
    ∃ rs2 st1 h1 q sq lv,
      reports h0 hostname rs2 ss'
      ∧ foldM mergeRegistry st rs h0 = foldM mergeRegistry st1 rs2 h1
      ∧ smap st1 = {[ hostname := q ]}
      ∧ (∃ X, services st1 = X ++ [q] ∧ Forall (otherHost h0 hostname) X)
      ∧ grows (length h0) h0 h1
      ∧ canonical (length h0) h1 q sq
      ∧ (ClusterExternalAddresses (Attributes s1) = None
         ↔ ClusterExternalAddresses (Attributes sq) = None)
      ∧ (ClusterExternalPorts (Attributes s1) = None
         ↔ ClusterExternalPorts (Attributes sq) = None)
      ∧ Hostname sq = hostname
      ∧ ClusterVIPs sq = Some lv
      ∧ h1 !! lv = Some (ObjVIPs (<[c1 := model.Address s1]> vm0)).
Proof.
  induction 1 as [|r rs ss Hr Hother _ IH|r rs ss p s Hr Hsvc Hp Hs Hreports _];
    intros c1 s1 ss' st l0 vm0 Hss Hsmap HX Hvalid Hl0 Hvm0.
  - done.
  - destruct (mergeRegistry_other st r h0 Hr Hother) as (st1 & Y1 & Hrun & E1 & E2 & HY1).
    destruct (IH c1 s1 ss' st1 l0 vm0)
      as (rs2 & st2 & h2 & q & sq & lv & Hrep & Hrest & ?); try done.
    { congruence. }
    { rewrite E2. by apply Forall_app. }
    exists rs2, st2, h2, q, sq, lv. split; [done|]. split; [|done].
    simpl. by rewrite (bind_run _ _ _ _ _ Hrun).
  - injection Hss as <- <- <-.
    destruct (DeepCopy_total p h0 s Hp Hvalid) as (q & h1 & Hcopy).
    destruct (DeepCopy_Done _ _ _ _ Hcopy) as (s0 & s' & Hp0 & Hpre & Hcan & Hcp).
    assert (s0 = s) as -> by congruence.
    pose proof (copy_vips _ _ _ _ Hcp) as Hv. rewrite Hl0 in Hv.
    destruct Hv as (lv & vm & Hlv & Hvm & Hvm').
    assert (vm = vm0) as ->.
    { rewrite Hvm0 in Hvm. by injection Hvm. }
    pose proof (prefix_grows (length h0) _ _ Hpre) as Hg1.
    destruct (mergeClusterMaps_total (Cluster r) (length h0) h1 q p s s')
      as [h2 Hmerge]; try done.
    { by eapply prefix_lookup_Some. }
    { congruence. }
    { intros l Hl. destruct (valid_addresses _ _ Hvalid l Hl) as (am & Ham & _).
      split.
      - exists am. by eapply prefix_lookup_Some.
      - rewrite <- (copy_addresses _ _ _ _ Hcp). congruence. }
    { intros l Hl. destruct (valid_ports _ _ Hvalid l Hl) as (pm & Hpm & _).
      split.
      - exists pm. by eapply prefix_lookup_Some.
      - rewrite <- (copy_ports _ _ _ _ Hcp). congruence. }
    destruct (mergeClusterMaps_Done _ _ _ _ _ _ _ _ Hcan Hmerge)
      as (src & lv' & vm' & Hsrc & Hlv' & Hvm2 & Hnew & Hg2 & Hkeep).
    assert (src = s) as ->.
    { apply (prefix_lookup_Some _ _ _ _ Hp) in Hpre. congruence. }
    assert (lv' = lv) as -> by congruence.
    assert (vm' = vm0) as ->.
    { rewrite Hvm' in Hvm2. by injection Hvm2. }
    pose proof (sightService_new (Cluster r) st p h0 s q h1 tt h2 Hp
                  ltac:(by rewrite Hsmap) Hcopy Hmerge) as Hsight.
    set (st1 := {| smap := <[Hostname s := q]> (smap st);
                   services := services st ++ [q];
                   errs := errs st |}) in *.
    exists rs, st1, h2, q, s', lv. split_and!; try done.
    + simpl. unfold mergeRegistry. rewrite Hsvc.
      destruct (decide (Cluster r = "")); [done|].
      simpl. rewrite (bind_run (sightService _ _ _ ≫= _) _ h0 st1 h2); [done|].
      by rewrite (bind_run _ _ _ _ _ Hsight).
    + simpl. rewrite Hsmap, Hs. apply insert_empty.
    + by exists (services st).
    + by eapply grows_trans.
    + by eapply canonical_grows.
    + apply Hcp.
    + apply Hcp.
    + by rewrite (copy_hostname _ _ _ _ Hcp).
Qed.

(** The whole pass, when every later sighting can be merged. *)
Lemma pass_first rs c1 s1 ss st l0 vm0 :
  reports h0 hostname rs ((c1, s1) :: ss) →
  smap st = ∅ →
  Forall (otherHost h0 hostname) (services st) →
  validService h0 s1 →
  ClusterVIPs s1 = Some l0 →
  h0 !! l0 = Some (ObjVIPs vm0) →
  Forall (contributes h0 s1) ss.*2 →
  ∃ st' h' X Y q sq lv,
    foldM mergeRegistry st rs h0 = Done st' h'
    ∧ services st' = X ++ q :: Y
    ∧ Forall (otherHost h0 hostname) X
    ∧ Forall (otherHost h0 hostname) Y
    ∧ grows (length h0) h0 h'
    ∧ canonical (length h0) h' q sq
    ∧ Hostname sq = hostname
    ∧ ClusterVIPs sq = Some lv
    ∧ h' !! lv = Some (ObjVIPs (assignAll vm0 ((c1, s1) :: ss))).
Proof.
  intros Hreports Hsmap HX Hvalid Hl0 Hvm0 Hcontrib.
  destruct (pass_first_split rs _ Hreports c1 s1 ss st l0 vm0)
    as (rs2 & st1 & h1 & q & sq & lv & Hrep & Hrun & Hsm & (X & Hsv & HX')
        & Hg & Hcan & HA & HP & Hhost & Hlv & Hvm); try done.
  destruct (pass_rest rs2 ss Hrep st1 h1 q sq lv
              (<[c1 := model.Address s1]> vm0) X [])
    as (st' & h' & Y' & Hrest & Hsv' & HY' & Hg' & Hcan' & Hfinal); try done.
  { eapply Forall_impl; [exact Hcontrib|]. intros s2 [HA2 HP2]. split.
    - intros l Hl. destruct (HA2 l Hl) as [? ?]. split; [done|]. by rewrite <- HA.
    - intros l Hl. destruct (HP2 l Hl) as [? ?]. split; [done|]. by rewrite <- HP. }
  exists st', h', X, Y', q, sq, lv. split_and!; try done. congruence.
Qed.

End ServicesPass.

(** C1, as the code has it.  With more than one cluster-scoped member
    counted, let each cluster-scoped member list one service of the same
    hostname, under distinct cluster ids [C1..Cn] and with primary
    addresses [A1..An], the other members listing services of other
    hostnames or failing.  Let the first of these services have valid
    references and a map of cluster addresses with no key other than
    [C1..Cn], and let it have each external map that a later one has.  Then
    [Services] completes, its list holds exactly one record of that
    hostname, and the map of cluster addresses of that record is exactly
    [{C1:A1, ..., Cn:An}]. *)
Theorem Services_merges_cluster_vips (c : Controller) (h0 : Heap)
    (hostname : string) (c1 : string) (s1 : Service)
    (ss : list (string * Service)) (l0 : loc) (vm0 : gmap string string) :
  (1 < numK8SRegistries c)%Z →
  reports h0 hostname (registries c) ((c1, s1) :: ss) →
  NoDup ((c1, s1) :: ss).*1 →
  validService h0 s1 →
  ClusterVIPs s1 = Some l0 →
  h0 !! l0 = Some (ObjVIPs vm0) →
  (∀ k, is_Some (vm0 !! k) → k ∈ ((c1, s1) :: ss).*1) →
  Forall (contributes h0 s1) ss.*2 →
  ∃ out errs h1 q sq lv,
    aggregate.Services c h0 = Done (out, errs) h1
    ∧ recordsFor h1 hostname out = [q]
    ∧ h1 !! q = Some (ObjService sq)
    ∧ Hostname sq = hostname
    ∧ ClusterVIPs sq = Some lv
    ∧ h1 !! lv = Some (ObjVIPs (list_to_map (clusterAddresses ((c1, s1) :: ss)))).
Proof.
  intros Hcount Hreports Hnd Hvalid Hl0 Hvm0 Hsub Hcontrib.
  destruct (pass_first h0 hostname _ c1 s1 ss
              {| smap := ∅; services := []; errs := None |} l0 vm0 Hreports)
    as (st' & h' & X & Y & q & sq & lv & Hrun & Hsv & HX & HY & Hg & Hcan & Hhost
        & Hlv & Hfinal); try done.
  exists (services st'), (errs st'), h', q, sq, lv.
  split; [|split; [|split; [|split; [|split]]]]; try done.
  - unfold aggregate.Services, GetRegistries.
    destruct (decide _) as [Hle|_]; [lia|].
    by rewrite (bind_run _ _ _ _ _ Hrun).
  - rewrite Hsv. eapply recordsFor_one; try done. apply Hcan.
  - apply Hcan.
  - rewrite Hfinal. f_equal. f_equal. by apply assignAll_exact.
Qed.

(** ** The merged service of a hostname *)

Section GetServicePass.

Implicit Types (h : Heap) (r : Instance) (rs : list Instance)
  (ss : list (string * Service)) (vm : gmap string string).

Variables (h0 : Heap) (hostname : string).

(** The members after the first hit. *)
Lemma find_rest rs ss :
  finds h0 hostname rs ss →
  ∀ h q sq lv vm errs,
    grows (length h0) h0 h →
    canonical (length h0) h q sq →
    ClusterVIPs sq = Some lv →
    h !! lv = Some (ObjVIPs vm) →
    Forall (contributes h0 sq) ss.*2 →
    ∃ h',
      getServiceMerged rs hostname (Some q) errs h
      = Done (Some q, collect errs (getServiceErrors hostname rs)) h'
      ∧ grows (length h0) h0 h'
      ∧ canonical (length h0) h' q sq
      ∧ h' !! lv = Some (ObjVIPs (assignAll vm ss)).
Proof.
  induction 1 as [|r rs ss Hmiss _ IH|r rs ss p s Hr Hget Hp _ IH];
    intros h q sq lv vm errs Hg Hcan Hlv Hvm Hcontrib.
  - exists h. by split_and!.
  - destruct (IH h q sq lv vm
                (collect errs [(serviceregistry.GetService r hostname).2]))
      as (h' & Hrest & ?); try done.
    exists h'. split; [|done]. simpl.
    destruct (serviceregistry.GetService r hostname) as [[p|] [err|]];
      simpl in *; try done.
    destruct Hmiss as [Hmiss|Hmiss]; done.
  - rewrite fmap_cons in Hcontrib. apply Forall_cons in Hcontrib as [[HA HP] Hcontrib].
    simpl in HA, HP.
    pose proof (grows_service _ _ _ _ _ Hg Hp) as Hp'.
    destruct (mergeClusterMaps_total (Cluster r) (length h0) h q p s sq)
      as [h1 Hmerge]; try done.
    { congruence. }
    { intros l Hl. destruct (HA l Hl) as [[am Ham] ?]. split; [|done].
      by eapply grows_externalAddresses. }
    { intros l Hl. destruct (HP l Hl) as [[pm Hpm] ?]. split; [|done].
      by eapply grows_externalPorts. }
    destruct (mergeClusterMaps_Done _ _ _ _ _ _ _ _ Hcan Hmerge)
      as (src & lv' & vm' & Hsrc & Hlv' & Hvm' & Hnew & Hg1 & _).
    assert (src = s) as -> by congruence.
    assert (lv' = lv) as -> by congruence.
    assert (vm' = vm) as ->.
    { rewrite Hvm in Hvm'. by injection Hvm'. }
    destruct (IH h1 q sq lv (<[Cluster r := model.Address s]> vm) errs)
      as (h' & Hrest & ?); try done.
    { by eapply grows_trans. }
    { by eapply canonical_grows. }
    exists h'. split; [|done]. simpl. rewrite Hget.
    destruct (decide (Cluster r = "")); [done|].
    by rewrite (bind_run _ _ _ _ _ Hmerge).
Qed.

(** The members up to the first hit, which is copied. *)
Lemma find_first_split rs ss :
  finds h0 hostname rs ss →
  ∀ c1 s1 ss' l0 vm0 errs,
    ss = (c1, s1) :: ss' →
    validService h0 s1 →
    ClusterVIPs s1 = Some l0 →
    h0 !! l0 = Some (ObjVIPs vm0) →
    ∃ rs2 errs1 q h1 sq lv,
      finds h0 hostname rs2 ss'
      ∧ getServiceMerged rs hostname None errs h0
        = getServiceMerged rs2 hostname (Some q) errs1 h1
      ∧ collect errs (getServiceErrors hostname rs)
        = collect errs1 (getServiceErrors hostname rs2)
      ∧ h0 `prefix_of` h1
      ∧ canonical (length h0) h1 q sq
      ∧ copyOf h0 h1 s1 sq
      ∧ ClusterVIPs sq = Some lv
      ∧ h1 !! lv = Some (ObjVIPs vm0).
Proof.
  induction 1 as [|r rs ss Hmiss _ IH|r rs ss p s Hr Hget Hp Hfinds _];
    intros c1 s1 ss' l0 vm0 errs Hss Hvalid Hl0 Hvm0.
  - done.
  - destruct (IH c1 s1 ss' l0 vm0
                (collect errs [(serviceregistry.GetService r hostname).2]))
      as (rs2 & errs1 & q & h1 & sq & lv & Hrep & Hrest & Hcol & ?); try done.
    exists rs2, errs1, q, h1, sq, lv. split; [done|].
    split; [|by split]. simpl.
    destruct (serviceregistry.GetService r hostname) as [[p|] [err|]];
      simpl in *; try done.
    destruct Hmiss as [Hmiss|Hmiss]; done.
  - injection Hss as <- <- <-.
    destruct (DeepCopy_total p h0 s Hp Hvalid) as (q & h1 & Hcopy).
    destruct (DeepCopy_Done _ _ _ _ Hcopy) as (s0 & s' & Hp0 & Hpre & Hcan & Hcp).
    assert (s0 = s) as -> by congruence.
    pose proof (copy_vips _ _ _ _ Hcp) as Hv. rewrite Hl0 in Hv.
    destruct Hv as (lv & vm & Hlv & Hvm & Hvm').
    assert (vm = vm0) as ->.
    { rewrite Hvm0 in Hvm. by injection Hvm. }
    exists rs, errs, q, h1, s', lv. split_and!; try done.
    + simpl. rewrite Hget.
      destruct (decide (Cluster r = "")); [done|].
      by rewrite (bind_run _ _ _ _ _ Hcopy).
    + simpl. unfold getServiceErrors. simpl. by rewrite Hget.
Qed.

(** The whole scan, when every later hit can be merged. *)
Lemma find_first rs c1 s1 ss l0 vm0 errs :
  finds h0 hostname rs ((c1, s1) :: ss) →
  validService h0 s1 →
  ClusterVIPs s1 = Some l0 →
  h0 !! l0 = Some (ObjVIPs vm0) →
  Forall (contributes h0 s1) ss.*2 →
  ∃ q h' sq lv,
    getServiceMerged rs hostname None errs h0
    = Done (Some q, collect errs (getServiceErrors hostname rs)) h'
    ∧ grows (length h0) h0 h'
    ∧ canonical (length h0) h' q sq
    ∧ Hostname sq = Hostname s1
    ∧ model.Address sq = model.Address s1
    ∧ ClusterVIPs sq = Some lv
    ∧ h' !! lv = Some (ObjVIPs (assignAll vm0 ss)).
Proof.
  intros Hfinds Hvalid Hl0 Hvm0 Hcontrib.
  destruct (find_first_split rs _ Hfinds c1 s1 ss l0 vm0 errs)
    as (rs2 & errs1 & q & h1 & sq & lv & Hrep & Hrun & Hcol & Hpre & Hcan & Hcp
        & Hlv & Hvm); try done.
  destruct (find_rest rs2 ss Hrep h1 q sq lv vm0 errs1)
    as (h' & Hrest & Hg' & Hcan' & Hfinal); try done.
  { by apply prefix_grows. }
  { eapply Forall_impl; [exact Hcontrib|]. intros s2 [HA2 HP2]. split.
    - intros l Hl. destruct (HA2 l Hl) as [? ?]. split; [done|].
      by rewrite <- (copy_addresses _ _ _ _ Hcp).
    - intros l Hl. destruct (HP2 l Hl) as [? ?]. split; [done|].
      by rewrite <- (copy_ports _ _ _ _ Hcp). }
  exists q, h', sq, lv. split_and!; try done; [|apply Hcp|apply Hcp].
  rewrite Hrun, Hrest, Hcol. done.
Qed.

(** Whatever the members answer: a completed scan has changed nothing of
    [h0], and what it returns is what a member without cluster id found or
    a canonical record. *)
Lemma getServiceMerged_Done rs0 rs out errs h res errs' h' :
  rs ⊆ rs0 →
  grows (length h0) h0 h →
  (∀ q, out = Some q → ∃ sq, canonical (length h0) h q sq) →
  getServiceMerged rs hostname out errs h = Done (res, errs') h' →
  grows (length h0) h0 h'
  ∧ ∀ q, res = Some q →
      foundUnscoped rs0 hostname q ∨ ∃ sq, canonical (length h0) h' q sq.
Proof.
  revert out errs h. induction rs as [|r rs IH]; intros out errs h Hsub Hg Hout; simpl.
  - intros [[= -> ->] ->]%ret_Done. split; [done|]. intros q Hq. right. by apply Hout.
  - assert (Hsub' : rs ⊆ rs0).
    { intros r' Hr'. apply Hsub. by right. }
    assert (Hr : r ∈ rs0) by (apply Hsub; by left).
    destruct (serviceregistry.GetService r hostname) as [[p|] [err|]] eqn:E;
      try (by apply IH).
    destruct (decide (Cluster r = "")).
    + intros [[= -> ->] ->]%ret_Done. split; [done|].
      intros q [= <-]. left. by exists r.
    + destruct out as [o|].
      * intros (u & h1 & Hmerge & Hrest)%bind_Done.
        destruct (Hout o eq_refl) as [sq Hsq].
        destruct (mergeClusterMaps_Done _ _ _ _ _ _ _ _ Hsq Hmerge)
          as (_ & _ & _ & _ & _ & _ & _ & Hg1 & _).
        eapply IH; [done | by eapply grows_trans | | exact Hrest].
        intros q [= <-]. exists sq. by eapply canonical_grows.
      * intros (q & h1 & Hcopy & Hrest)%bind_Done.
        destruct (DeepCopy_Done _ _ _ _ Hcopy) as (s0 & s' & _ & Hpre & Hcan & _).
        pose proof (grows_length _ _ _ Hg) as Hlen.
        eapply IH; [done | | | exact Hrest].
        -- eapply grows_trans; [exact Hg | by apply prefix_grows].
        -- intros q' [= <-]. exists s'. by eapply canonical_weaken.
Qed.

End GetServicePass.

(** ** The single-cluster path *)

Section FastPath.

Implicit Types (r : Instance) (rs : list Instance).

Lemma concatServices_spec rs svcs errs :
  concatServices rs svcs errs
  = (svcs ++ concat (answeredServices <$> rs), collect errs (servicesErrors rs)).
Proof.
  revert svcs errs. induction rs as [|r rs IH]; intros svcs errs; simpl.
  - by rewrite app_nil_r.
  - unfold answeredServices at 1.
    destruct (serviceregistry.Services r) as [l [err|]]; simpl; rewrite IH.
    + done.
    + by rewrite app_assoc.
Qed.

Lemma answeredServices_ok rs :
  Forall (λ r, (serviceregistry.Services r).2 = None) rs →
  answeredServices <$> rs = (λ r, (serviceregistry.Services r).1) <$> rs.
Proof.
  intros H. apply Forall_fmap_ext_1. eapply Forall_impl; [exact H|].
  intros r. unfold answeredServices.
  by destruct (serviceregistry.Services r) as [l [err|]].
Qed.

Lemma servicesErrors_ok rs :
  Forall (λ r, (serviceregistry.Services r).2 = None) rs →
  collect None (servicesErrors rs) = None.
Proof. intros H. apply collect_None. split; [done|]. by apply Forall_fmap. Qed.

Lemma getServiceFirst_spec hostname rs errs :
  getServiceFirst rs hostname errs
  = match firstFound hostname rs with
    | Some p => (Some p, None)
    | None => (None, collect errs (getServiceErrors hostname rs))
    end.
Proof.
  revert errs. induction rs as [|r rs IH]; intros errs; simpl; [done|].
  destruct (serviceregistry.GetService r hostname) as [[p|] [err|]];
    simpl; by rewrite ?IH.
Qed.

Lemma firstFound_Some hostname rs :
  Exists (λ r, ∃ p, serviceregistry.GetService r hostname = (Some p, None)) rs →
  is_Some (firstFound hostname rs).
Proof.
  induction rs as [|r rs IH]; [by intros ?%Exists_nil|].
  intros [[p Hp]|Hex]%Exists_cons; simpl.
  - rewrite Hp. by eexists.
  - destruct (serviceregistry.GetService r hostname) as [[p|] [err|]]; eauto.
Qed.

(** Without a hit from a member without cluster id, the multi-cluster scan
    returns every error it met. *)
Lemma getServiceMerged_errs hostname rs out errs h res errs' h' :
  Forall (λ r, Cluster r = "" → misses hostname r) rs →
  getServiceMerged rs hostname out errs h = Done (res, errs') h' →
  errs' = collect errs (getServiceErrors hostname rs).
Proof.
  revert out errs h. induction rs as [|r rs IH]; intros out errs h Hall; simpl.
  - by intros [[= -> ->] ->]%ret_Done.
  - apply Forall_cons in Hall as [Hr Hall]. unfold misses in Hr.
    destruct (serviceregistry.GetService r hostname) as [[p|] [err|]];
      simpl in *; try (by apply IH).
    destruct (decide (Cluster r = "")) as [Hc|Hc].
    + destruct (Hr Hc); done.
    + destruct out as [o|].
      * intros (u & h1 & _ & Hrest)%bind_Done. by eapply IH.
      * intros (q & h1 & _ & Hrest)%bind_Done. by eapply IH.
Qed.

End FastPath.

(** C9.  When the count of cluster-scoped members is at most one and no
    member fails, [Services] returns the lists of the members, concatenated
    in member order, with a nil error, and leaves the store as it was: no
    record is copied, merged or written to. *)
Theorem Services_fast_path_concatenates (c : Controller) (h : Heap) :
  (numK8SRegistries c ≤ 1)%Z →
  Forall (λ r, (serviceregistry.Services r).2 = None) (registries c) →
  aggregate.Services c h
  = Done (concat ((λ r, (serviceregistry.Services r).1) <$> registries c), None) h.
Proof.
  intros Hcount Hok. unfold aggregate.Services, GetRegistries.
  destruct (decide _) as [_|]; [|done].
  rewrite concatServices_spec, answeredServices_ok, servicesErrors_ok by done.
  done.
Qed.

(** Two members, counted as at most one cluster, that list the same
    hostname: both records are returned, as they are. *)
Lemma Services_fast_path_concatenates_witness :
  aggregate.Services
    (sample.controller 1 [ sample.registry "" [3] "h" (Some 3);
                           sample.registry "c2" [7] "h" (Some 7) ])
    sample.twoLoadBalancers
  = Done ([3; 7], None) sample.twoLoadBalancers.
Proof.
  apply (Services_fast_path_concatenates
           (sample.controller 1 [ sample.registry "" [3] "h" (Some 3);
                                  sample.registry "c2" [7] "h" (Some 7) ])
           sample.twoLoadBalancers).
  - vm_compute. discriminate.
  - repeat constructor.
Defined.

(** ** Which errors reach the caller *)

(** One member fails and another one answers: [Services] returns the
    answer together with the error, on the single-cluster path, and so does
    [GetService] on the multi-cluster path. *)
Lemma Services_returns_error_with_results :
  (∃ err,
     aggregate.Services sample.oneDown sample.oneLoadBalancer
     = Done ([1], Some err) sample.oneLoadBalancer)
  ∧ (∃ out err h1,
       aggregate.Services sample.oneClusterDown sample.twoLoadBalancers
       = Done (out, Some err) h1 ∧ out ≠ [])
  ∧ (∃ q err h1,
       aggregate.GetService sample.oneClusterDown "h" sample.twoLoadBalancers
       = Done (Some q, Some err) h1).
Proof.
  split; [|split].
  - eexists. vm_compute. reflexivity.
  - eexists _, _, _. split; [vm_compute; reflexivity | discriminate].
  - eexists _, _, _. vm_compute. reflexivity.
Qed.

(** C3, as the code has it.  [Services] returns the aggregated error of
    the members that failed, whatever the other members listed: on the
    single-cluster path it returns the lists of the members that answered
    together with that error.  [GetService] with at most one cluster-scoped
    member counted returns the first service found with a nil error,
    whatever errors the members before it returned, and the aggregated
    error when nothing is found; on the multi-cluster path, when no member
    without cluster id finds the service, it returns the aggregated error
    with whatever it has merged.  The aggregated error is nil only if no
    member failed. *)
Theorem errors_masked_only_by_first_hit (c : Controller) (h : Heap)
    (hostname : string) :
  (∀ out errs h1,
     aggregate.Services c h = Done (out, errs) h1 →
     errs = collect None (servicesErrors (registries c)))
  ∧ ((numK8SRegistries c ≤ 1)%Z →
     aggregate.Services c h
     = Done (concat (answeredServices <$> registries c),
             collect None (servicesErrors (registries c))) h)
  ∧ ((numK8SRegistries c ≤ 1)%Z →
     aggregate.GetService c hostname h
     = Done (match firstFound hostname (registries c) with
             | Some p => (Some p, None)
             | None => (None, collect None (getServiceErrors hostname (registries c)))
             end) h)
  ∧ (∀ res errs h1,
       (1 < numK8SRegistries c)%Z →
       Forall (λ r, Cluster r = "" → misses hostname r) (registries c) →
       aggregate.GetService c hostname h = Done (res, errs) h1 →
       errs = collect None (getServiceErrors hostname (registries c)))
  ∧ (∀ answers, collect None answers = None ↔ Forall (λ a, a = None) answers).
Proof.
  split_and!.
  - intros out errs h1. unfold aggregate.Services, GetRegistries.
    destruct (decide _).
    + rewrite concatServices_spec. by intros [[= -> ->] _]%ret_Done.
    + intros (st & h' & Hrun & [[= -> ->] _]%ret_Done)%bind_Done.
      by apply foldM_mergeRegistry_errs in Hrun.
  - intros Hcount. unfold aggregate.Services, GetRegistries.
    destruct (decide _); [|done]. by rewrite concatServices_spec.
  - intros Hcount. unfold aggregate.GetService, GetRegistries.
    destruct (decide _); [|done]. by rewrite getServiceFirst_spec.
  - intros res errs h1 Hcount Hall. unfold aggregate.GetService, GetRegistries.
    destruct (decide _); [lia|]. by apply getServiceMerged_errs.
  - intros answers. rewrite collect_None. split; [by intros [_ ?] | done].
Qed.

(** A static registry is down and the next one finds the service: the
    service is returned with a nil error. *)
Lemma errors_masked_only_by_first_hit_witness :
  aggregate.GetService sample.oneDown "h" sample.oneLoadBalancer
  = Done (Some 1, None) sample.oneLoadBalancer.
Proof.
  destruct (errors_masked_only_by_first_hit sample.oneDown
              sample.oneLoadBalancer "h") as (_ & _ & H & _).
  apply H. vm_compute. discriminate.
Defined.

(** ** The cluster addresses of a merged record *)

Section SampleFacts.

Lemma sample_valid_first :
  validService sample.twoLoadBalancers
    (sample.service "h" "10.0.0.1" (Some 0) (Some 2) None).
Proof.
  split; simpl.
  - intros l [= <-]. by eexists.
  - intros l [= <-]. eexists. split; [reflexivity|].
    intros k a [<- <-]%lookup_singleton_Some l' [= <-]. by eexists.
  - done.
Defined.

Lemma sample_contributes s :
  s = sample.service "h" "10.0.0.1" (Some 0) (Some 2) None
  ∨ s = sample.service "h" "10.0.0.2" (Some 4) (Some 6) None →
  contributes sample.twoLoadBalancers
    (sample.service "h" "10.0.0.1" (Some 0) (Some 2) None) s.
Proof.
  intros [-> | ->]; (split; simpl; [|done]);
    intros l [= <-]; (split; [by eexists | done]).
Defined.

End SampleFacts.

(** The scenario of the specification: a static registry with [S1] and two
    clusters [c1], [c2] that run ["h"] at 10.0.0.1 and 10.0.0.2.  The list
    is [[S1; merged]] and the merged record maps [c1] and [c2] to these
    addresses. *)
Lemma Services_merges_cluster_vips_witness :
  ∃ out errs h1 q sq lv,
    aggregate.Services sample.threeMembers sample.twoLoadBalancers
    = Done (out, errs) h1
    ∧ recordsFor h1 "h" out = [q]
    ∧ h1 !! q = Some (ObjService sq)
    ∧ Hostname sq = "h"
    ∧ ClusterVIPs sq = Some lv
    ∧ h1 !! lv = Some (ObjVIPs {[ "c1" := "10.0.0.1"; "c2" := "10.0.0.2" ]}).
Proof.
  apply (Services_merges_cluster_vips sample.threeMembers sample.twoLoadBalancers
           "h" "c1" (sample.service "h" "10.0.0.1" (Some 0) (Some 2) None)
           [("c2", sample.service "h" "10.0.0.2" (Some 4) (Some 6) None)]
           0 ∅).
  - vm_compute. reflexivity.
  - apply reports_other; [reflexivity | |].
    { intros _. repeat constructor. eexists. split; [reflexivity | discriminate]. }
    apply (reports_sighting _ _ (sample.registry "c1" [3] "h" (Some 3)) _ _ 3);
      [discriminate | reflexivity | reflexivity | reflexivity |].
    apply (reports_sighting _ _ (sample.registry "c2" [7] "h" (Some 7)) _ _ 7);
      [discriminate | reflexivity | reflexivity | reflexivity |].
    apply reports_nil.
  - apply (bool_decide_unpack _). vm_compute. exact I.
  - apply sample_valid_first.
  - reflexivity.
  - reflexivity.
  - intros k [v Hv]. by rewrite lookup_empty in Hv.
  - constructor; [apply sample_contributes; auto|]. constructor.
Defined.

(** Two clusters "c1" and "c2" that run "h" at 10.0.0.1 and 10.0.0.2,
    counted as two; the record of "c1" comes with an address for a cluster
    "c9".  [Services] returns one record for "h"; its map of cluster
    addresses has the entry of "c9" next to those of "c1" and "c2", so it
    is not [{c1:10.0.0.1, c2:10.0.0.2}]. *)
Lemma Services_keeps_foreign_cluster_entry :
  ∃ out errs h1 q sq lv vm,
    (1 < numK8SRegistries sample.twoPlain)%Z
    ∧ reports sample.foreignEntry "h" (registries sample.twoPlain)
        [ ("c1", sample.service "h" "10.0.0.1" (Some 0) None None);
          ("c2", sample.service "h" "10.0.0.2" (Some 2) None None) ]
    ∧ aggregate.Services sample.twoPlain sample.foreignEntry = Done (out, errs) h1
    ∧ recordsFor h1 "h" out = [q]
    ∧ h1 !! q = Some (ObjService sq)
    ∧ ClusterVIPs sq = Some lv
    ∧ h1 !! lv = Some (ObjVIPs vm)
    ∧ vm !! "c1" = Some "10.0.0.1"
    ∧ vm !! "c2" = Some "10.0.0.2"
    ∧ vm !! "c9" = Some "10.9.9.9"
    ∧ vm ≠ {[ "c1" := "10.0.0.1"; "c2" := "10.0.0.2" ]}.
Proof.
  eexists _, _, _, _, _, _, _. split_and!.
  - vm_compute. reflexivity.
  - apply (reports_sighting _ _ (sample.registry "c1" [1] "h" (Some 1)) _ _ 1);
      [discriminate | reflexivity | reflexivity | reflexivity |].
    apply (reports_sighting _ _ (sample.registry "c2" [3] "h" (Some 3)) _ _ 3);
      [discriminate | reflexivity | reflexivity | reflexivity |].
    apply reports_nil.
  - vm_compute. reflexivity.
  - vm_compute. reflexivity.
  - vm_compute. reflexivity.
  - reflexivity.
  - vm_compute. reflexivity.
  - vm_compute. reflexivity.
  - vm_compute. reflexivity.
  - vm_compute. reflexivity.
  - intros Heq. apply (f_equal (λ m : gmap string string, m !! "c9")) in Heq.
    vm_compute in Heq. discriminate.
Qed.

(** The same two clusters when the record of "c1" has no map of cluster
    addresses: the assignment of line 193, which no test guards, is to a
    nil map, for the first sighting already. *)
Lemma Services_nil_cluster_addresses_panics :
  aggregate.Services sample.twoPlain sample.noClusterVIPs = Panics NilMapWrite.
Proof. vm_compute. reflexivity. Qed.

(** C2 (the code departs from it).  A static registry and two clusters
    "c1" and "c2", counted as two, that run "h" at 10.0.0.1 and 10.0.0.2.
    The registry of "c1" is the first to find "h".  The record that
    [GetService] returns has the address of "c2" under "c2" and nothing
    under "c1": line 255 is in the [else] branch of [if out == nil], so the
    first member that finds the service is copied and its cluster id is not
    assigned.  [Services], on the same members, assigns it (line 193 is
    run for the first sighting too): its record of "h" has 10.0.0.1 under
    "c1". *)
Theorem GetService_omits_first_cluster :
  ∃ r1 s1 q errs h1 out errs' h2 q',
    registries sample.threeMembers !! 1 = Some r1
    ∧ Cluster r1 = "c1"
    ∧ serviceregistry.GetService r1 "h" = (Some 3, None)
    ∧ sample.twoLoadBalancers !! 3 = Some (ObjService s1)
    ∧ model.Address s1 = "10.0.0.1"
    ∧ (1 < numK8SRegistries sample.threeMembers)%Z
    ∧ aggregate.GetService sample.threeMembers "h" sample.twoLoadBalancers
      = Done (Some q, errs) h1
    ∧ clusterVIP h1 q "c2" = Some "10.0.0.2"
    ∧ clusterVIP h1 q "c1" = None
    ∧ aggregate.Services sample.threeMembers sample.twoLoadBalancers
      = Done (out, errs') h2
    ∧ recordsFor h2 "h" out = [q']
    ∧ clusterVIP h2 q' "c2" = Some "10.0.0.2"
    ∧ clusterVIP h2 q' "c1" = Some "10.0.0.1".
Proof.
  eexists _, _, _, _, _, _, _, _, _. split_and!; vm_compute; reflexivity.
Qed.

(** What [GetService] does merge.  With more than one cluster-scoped member
    counted, let the members that find a service under the hostname be
    cluster-scoped, the first of them with valid references and a map of
    cluster addresses, and with each external map that a later one has.
    Then [GetService] completes and returns a new record whose map of
    cluster addresses is the first service's own map with, for every later
    member that found the service, that member's cluster id assigned the
    address of its service.  The cluster id of the first member is not
    assigned: it maps to what the first service's own map held. *)
Lemma GetService_merges_later_clusters (c : Controller) (h0 : Heap)
    (hostname : string) (c1 : string) (s1 : Service)
    (ss : list (string * Service)) (l0 : loc) (vm0 : gmap string string) :
  (1 < numK8SRegistries c)%Z →
  finds h0 hostname (registries c) ((c1, s1) :: ss) →
  validService h0 s1 →
  ClusterVIPs s1 = Some l0 →
  h0 !! l0 = Some (ObjVIPs vm0) →
  Forall (contributes h0 s1) ss.*2 →
  ∃ q errs h1 sq lv,
    aggregate.GetService c hostname h0 = Done (Some q, errs) h1
    ∧ canonical (length h0) h1 q sq
    ∧ Hostname sq = Hostname s1
    ∧ model.Address sq = model.Address s1
    ∧ ClusterVIPs sq = Some lv
    ∧ h1 !! lv = Some (ObjVIPs (assignAll vm0 ss))
    ∧ (NoDup ss.*1 →
       ∀ c' s', (c', s') ∈ ss → assignAll vm0 ss !! c' = Some (model.Address s'))
    ∧ (c1 ∉ ss.*1 → assignAll vm0 ss !! c1 = vm0 !! c1).
Proof.
  intros Hcount Hfinds Hvalid Hl0 Hvm0 Hcontrib.
  destruct (find_first h0 hostname _ c1 s1 ss l0 vm0 None Hfinds)
    as (q & h1 & sq & lv & Hrun & Hg & Hcan & Hhost & Haddr & Hlv & Hfinal);
    try done.
  exists q, (collect None (getServiceErrors hostname (registries c))), h1, sq, lv.
  split_and!; try done.
  - unfold aggregate.GetService, GetRegistries.
    destruct (decide _) as [Hle|_]; [lia | done].
  - intros Hnd c' s' Hin. by apply assignAll_lookup_in.
  - apply assignAll_lookup_notin.
Qed.

Lemma GetService_merges_later_clusters_witness :
  ∃ q errs h1 sq lv,
    aggregate.GetService sample.threeMembers "h" sample.twoLoadBalancers
    = Done (Some q, errs) h1
    ∧ ClusterVIPs sq = Some lv
    ∧ h1 !! q = Some (ObjService sq)
    ∧ h1 !! lv = Some (ObjVIPs {[ "c2" := "10.0.0.2" ]}).
Proof.
  destruct (GetService_merges_later_clusters sample.threeMembers
              sample.twoLoadBalancers
              "h" "c1" (sample.service "h" "10.0.0.1" (Some 0) (Some 2) None)
              [("c2", sample.service "h" "10.0.0.2" (Some 4) (Some 6) None)]
              0 ∅)
    as (q & errs & h1 & sq & lv & Hrun & Hcan & _ & _ & Hlv & Hvm & _).
  - vm_compute. reflexivity.
  - apply finds_miss; [right; reflexivity|].
    apply (finds_hit _ _ (sample.registry "c1" [3] "h" (Some 3)) _ _ 3);
      [discriminate | reflexivity | reflexivity |].
    apply (finds_hit _ _ (sample.registry "c2" [7] "h" (Some 7)) _ _ 7);
      [discriminate | reflexivity | reflexivity |].
    apply finds_nil.
  - apply sample_valid_first.
  - reflexivity.
  - reflexivity.
  - constructor; [apply sample_contributes; auto|]. constructor.
  - exists q, errs, h1, sq, lv. split_and!; try done. apply Hcan.
Defined.

(** ** Merging into a nil map *)

Section Panics.

Implicit Types (h : Heap) (st : merged) (r : Instance) (rs : list Instance)
  (ss : list (string * Service)).

Lemma bind_Panics {A B} (m : M A) (k : A → M B) h f :
  m h = Panics f → (m ≫= k) h = Panics f.
Proof. intros H. unfold mbind, M_bind. by rewrite H. Qed.

Variable cluster : string.

Lemma mergeExternalAddresses_panics n h sp dst l am :
  canonical n h sp dst →
  h !! l = Some (ObjExternalAddresses am) →
  ClusterExternalAddresses (Attributes dst) = None →
  mergeExternalAddresses cluster sp (Some l) h = Panics NilMapWrite.
Proof.
  intros Hc Hl Hnil. simpl.
  assert (H1 : loadExternalAddresses l h = Done am h)
    by by apply loadExternalAddresses_Done.
  assert (H2 : loadService sp h = Done dst h)
    by (apply loadService_Done; split; [apply Hc | done]).
  by rewrite (bind_run _ _ _ _ _ H1), (bind_run _ _ _ _ _ H2), Hnil.
Qed.

Lemma mergeExternalPorts_panics n h sp dst l pm :
  canonical n h sp dst →
  h !! l = Some (ObjExternalPorts pm) →
  ClusterExternalPorts (Attributes dst) = None →
  mergeExternalPorts cluster sp (Some l) h = Panics NilMapWrite.
Proof.
  intros Hc Hl Hnil. simpl.
  assert (H1 : loadExternalPorts l h = Done pm h)
    by by apply loadExternalPorts_Done.
  assert (H2 : loadService sp h = Done dst h)
    by (apply loadService_Done; split; [apply Hc | done]).
  by rewrite (bind_run _ _ _ _ _ H1), (bind_run _ _ _ _ _ H2), Hnil.
Qed.

(** A sighting that has an external map the copy lacks makes the merge
    panic. *)
Lemma mergeClusterMaps_panics n h sp s src dst :
  h !! s = Some (ObjService src) →
  canonical n h sp dst →
  typedExternal h src →
  clashes dst src →
  mergeClusterMaps cluster sp s h = Panics NilMapWrite.
Proof.
  intros Hs Hc [HTA HTP] Hclash. unfold mergeClusterMaps.
  assert (H0 : loadService s h = Done src h) by by apply loadService_Done.
  rewrite (bind_run _ _ _ _ _ H0).
  destruct (ClusterExternalAddresses (Attributes dst)) as [ld|] eqn:ED.
  - (* the addresses are merged, the ports are not *)
    destruct Hclash as [[_ ?]|[Hsrc Hdst]]; [congruence|].
    destruct (mergeExternalAddresses_total cluster n h sp dst
                (ClusterExternalAddresses (Attributes src)) Hc) as [h1 H1].
    { intros l Hl. split; [by apply HTA | congruence]. }
    rewrite (bind_run _ _ _ _ _ H1).
    pose proof (mergeExternalAddresses_Done _ _ _ _ _ _ _ _ Hc H1) as S1.
    destruct (external_step cluster n h h1) as [G1 _]; [tauto|].
    pose proof (canonical_grows _ _ _ _ _ G1 Hc) as Hc1.
    destruct (ClusterExternalPorts (Attributes src)) as [lp|] eqn:EP; [|congruence].
    destruct (HTP lp eq_refl) as [pm Hpm].
    destruct (grows_externalPorts _ _ _ _ _ G1 Hpm) as [pm' Hpm'].
    apply bind_Panics. by eapply mergeExternalPorts_panics.
  - destruct (ClusterExternalAddresses (Attributes src)) as [la|] eqn:EA.
    + destruct (HTA la eq_refl) as [am Ham].
      apply bind_Panics. by eapply mergeExternalAddresses_panics.
    + destruct Hclash as [[? _]|[Hsrc Hdst]]; [congruence|].
      destruct (ClusterExternalPorts (Attributes src)) as [lp|] eqn:EP; [|congruence].
      destruct (HTP lp eq_refl) as [pm Hpm].
      simpl. rewrite (bind_run (mret tt) _ h tt h eq_refl).
      apply bind_Panics. by eapply mergeExternalPorts_panics.
Qed.

End Panics.

Section PanickingPass.

Implicit Types (h : Heap) (st : merged) (r : Instance) (rs : list Instance)
  (ss : list (string * Service)).

Variables (h0 : Heap) (hostname : string).

Lemma typedExternal_grows n h h' s :
  grows n h h' → typedExternal h s → typedExternal h' s.
Proof.
  intros Hg [HA HP]. split.
  - intros l Hl. destruct (HA l Hl) as [am ?]. by eapply grows_externalAddresses.
  - intros l Hl. destruct (HP l Hl) as [pm ?]. by eapply grows_externalPorts.
Qed.

(** A sighting either clashes with the copy or can be merged into it. *)
Lemma clashes_or_contributes sq s :
  typedExternal h0 s → clashes sq s ∨ contributes h0 sq s.
Proof.
  intros [HA HP].
  destruct (ClusterExternalAddresses (Attributes s)) as [la|] eqn:EA,
           (ClusterExternalAddresses (Attributes sq)) as [la'|] eqn:EA',
           (ClusterExternalPorts (Attributes s)) as [lp|] eqn:EP,
           (ClusterExternalPorts (Attributes sq)) as [lp'|] eqn:EP';
    try (left; unfold clashes; rewrite ?EA, ?EA', ?EP, ?EP';
         (by left) || (by right));
    right; (split; [rewrite ?EA, ?EA' | rewrite ?EP, ?EP']);
    intros l [= <-] || intros l [=]; (split; [eauto | done]).
Qed.

(** [Services]: once the canonical record lacks a map that a later
    sighting has, the pass panics at the first such sighting. *)
Lemma pass_rest_panics rs ss :
  reports h0 hostname rs ss →
  ∀ st h q sq lv vm,
    smap st = {[ hostname := q ]} →
    grows (length h0) h0 h →
    canonical (length h0) h q sq →
    ClusterVIPs sq = Some lv →
    h !! lv = Some (ObjVIPs vm) →
    Forall (typedExternal h0) ss.*2 →
    Exists (clashes sq) ss.*2 →
    foldM mergeRegistry st rs h = Panics NilMapWrite.
Proof.
  induction 1 as [|r rs ss Hr Hother _ IH|r rs ss p s Hr Hsvc Hp Hs _ IH];
    intros st h q sq lv vm Hsmap Hg Hcan Hlv Hvm Htyped Hex.
  - by apply Exists_nil in Hex.
  - destruct (mergeRegistry_other h0 hostname st r h Hr Hother)
      as (st1 & Y1 & Hrun & E1 & E2 & HY1).
    simpl. rewrite (bind_run _ _ _ _ _ Hrun).
    eapply IH; try done. congruence.
  - rewrite fmap_cons in Htyped, Hex. simpl in Htyped, Hex.
    apply Forall_cons in Htyped as [Hts Htyped].
    pose proof (grows_service _ _ _ _ _ Hg Hp) as Hp'.
    assert (Hlook : smap st !! Hostname s = Some q).
    { rewrite Hs, Hsmap. apply lookup_singleton_eq. }
    simpl. unfold mergeRegistry. rewrite Hsvc.
    destruct (decide (Cluster r = "")); [done|]. simpl.
    destruct (clashes_or_contributes sq s Hts) as [Hclash|[HA HP]].
    + apply bind_Panics. apply bind_Panics. unfold sightService.
      assert (H0 : loadService p h = Done s h) by by apply loadService_Done.
      rewrite (bind_run _ _ _ _ _ H0), Hlook.
      rewrite (bind_run (mret (q, st)) _ h (q, st) h eq_refl).
      apply bind_Panics.
      eapply mergeClusterMaps_panics; try done.
      by eapply typedExternal_grows.
    + apply Exists_cons in Hex as [Hclash|Hex].
      { exfalso. destruct Hclash as [[Hsrc Hdst]|[Hsrc Hdst]].
        - destruct (ClusterExternalAddresses (Attributes s)) as [l|] eqn:E; [|done].
          by destruct (HA l eq_refl).
        - destruct (ClusterExternalPorts (Attributes s)) as [l|] eqn:E; [|done].
          by destruct (HP l eq_refl). }
      destruct (mergeClusterMaps_total (Cluster r) (length h0) h q p s sq)
        as [h1 Hmerge]; try done.
      { congruence. }
      { intros l Hl. destruct (HA l Hl) as [[am Ham] ?]. split; [|done].
        by eapply grows_externalAddresses. }
      { intros l Hl. destruct (HP l Hl) as [[pm Hpm] ?]. split; [|done].
        by eapply grows_externalPorts. }
      destruct (mergeClusterMaps_Done _ _ _ _ _ _ _ _ Hcan Hmerge)
        as (src & lv' & vm' & Hsrc & Hlv' & Hvm' & Hnew & Hg1 & _).
      assert (lv' = lv) as -> by congruence.
      pose proof (sightService_known (Cluster r) st p h s q tt h1 Hp' Hlook Hmerge)
        as Hsight.
      rewrite (bind_run (sightService _ _ _ ≫= _) _ h st h1);
        [|by rewrite (bind_run _ _ _ _ _ Hsight)].
      eapply IH; try done.
      * by eapply grows_trans.
      * by eapply canonical_grows.
Qed.

(** [GetService], likewise. *)
Lemma find_rest_panics rs ss :
  finds h0 hostname rs ss →
  ∀ h q sq lv vm errs,
    grows (length h0) h0 h →
    canonical (length h0) h q sq →
    ClusterVIPs sq = Some lv →
    h !! lv = Some (ObjVIPs vm) →
    Forall (typedExternal h0) ss.*2 →
    Exists (clashes sq) ss.*2 →
    getServiceMerged rs hostname (Some q) errs h = Panics NilMapWrite.
Proof.
  induction 1 as [|r rs ss Hmiss _ IH|r rs ss p s Hr Hget Hp _ IH];
    intros h q sq lv vm errs Hg Hcan Hlv Hvm Htyped Hex.
  - by apply Exists_nil in Hex.
  - simpl.
    destruct (serviceregistry.GetService r hostname) as [[p|] [err|]];
      simpl in *; try (by eapply IH).
    destruct Hmiss as [Hmiss|Hmiss]; done.
  - rewrite fmap_cons in Htyped, Hex. simpl in Htyped, Hex.
    apply Forall_cons in Htyped as [Hts Htyped].
    pose proof (grows_service _ _ _ _ _ Hg Hp) as Hp'.
    simpl. rewrite Hget. destruct (decide (Cluster r = "")); [done|].
    destruct (clashes_or_contributes sq s Hts) as [Hclash|[HA HP]].
    + apply bind_Panics. eapply mergeClusterMaps_panics; try done.
      by eapply typedExternal_grows.
    + apply Exists_cons in Hex as [Hclash|Hex].
      { exfalso. destruct Hclash as [[Hsrc Hdst]|[Hsrc Hdst]].
        - destruct (ClusterExternalAddresses (Attributes s)) as [l|] eqn:E; [|done].
          by destruct (HA l eq_refl).
        - destruct (ClusterExternalPorts (Attributes s)) as [l|] eqn:E; [|done].
          by destruct (HP l eq_refl). }
      destruct (mergeClusterMaps_total (Cluster r) (length h0) h q p s sq)
        as [h1 Hmerge]; try done.
      { congruence. }
      { intros l Hl. destruct (HA l Hl) as [[am Ham] ?]. split; [|done].
        by eapply grows_externalAddresses. }
      { intros l Hl. destruct (HP l Hl) as [[pm Hpm] ?]. split; [|done].
        by eapply grows_externalPorts. }
      destruct (mergeClusterMaps_Done _ _ _ _ _ _ _ _ Hcan Hmerge)
        as (src & lv' & vm' & Hsrc & Hlv' & Hvm' & Hnew & Hg1 & _).
      assert (lv' = lv) as -> by congruence.
      rewrite (bind_run _ _ _ _ _ Hmerge).
      eapply IH; try done.
      * by eapply grows_trans.
      * by eapply canonical_grows.
Qed.

Lemma clashes_copy s1 sq s :
  (ClusterExternalAddresses (Attributes s1) = None
   ↔ ClusterExternalAddresses (Attributes sq) = None) →
  (ClusterExternalPorts (Attributes s1) = None
   ↔ ClusterExternalPorts (Attributes sq) = None) →
  clashes s1 s → clashes sq s.
Proof. unfold clashes. intros HA HP [[? ?]|[? ?]]; [left|right]; split; tauto. Qed.

End PanickingPass.

(** C10.  The merge is not total.  With more than one cluster-scoped
    member counted, let the cluster-scoped members each report a service
    of the same hostname, all with well-formed maps, and let a later one
    have a [ClusterExternalAddresses] or [ClusterExternalPorts] map where
    the first one's is nil.  The canonical record is a deep copy of the
    first, so that map of it is nil too, and the assignment for the later
    cluster writes into it: [Services] panics with "assignment to entry in
    nil map", and so does [GetService]. *)
Theorem merge_into_nil_map_panics (c : Controller) (h0 : Heap)
    (hostname : string) (c1 : string) (s1 : Service)
    (ss : list (string * Service)) (l0 : loc) (vm0 : gmap string string) :
  (1 < numK8SRegistries c)%Z →
  validService h0 s1 →
  ClusterVIPs s1 = Some l0 →
  h0 !! l0 = Some (ObjVIPs vm0) →
  Forall (typedExternal h0) ss.*2 →
  Exists (clashes s1) ss.*2 →
  (reports h0 hostname (registries c) ((c1, s1) :: ss) →
   aggregate.Services c h0 = Panics NilMapWrite)
  ∧ (finds h0 hostname (registries c) ((c1, s1) :: ss) →
     aggregate.GetService c hostname h0 = Panics NilMapWrite).
Proof.
  intros Hcount Hvalid Hl0 Hvm0 Htyped Hex. split.
  - intros Hreports. unfold aggregate.Services, GetRegistries.
    destruct (decide _) as [|_]; [lia|].
    destruct (pass_first_split h0 hostname _ _ Hreports c1 s1 ss
                {| smap := ∅; services := []; errs := None |} l0 vm0)
      as (rs2 & st1 & h1 & q & sq & lv & Hrep & Hrun & Hsm & _
          & Hg & Hcan & HA & HP & _ & Hlv & Hvm); try done.
    apply bind_Panics. rewrite Hrun.
    eapply pass_rest_panics; try done.
    eapply Exists_impl; [exact Hex|]. intros s. by apply clashes_copy.
  - intros Hfinds. unfold aggregate.GetService, GetRegistries.
    destruct (decide _) as [|_]; [lia|].
    destruct (find_first_split h0 hostname _ _ Hfinds c1 s1 ss l0 vm0 None)
      as (rs2 & errs1 & q & h1 & sq & lv & Hrep & Hrun & _ & Hpre & Hcan & Hcp
          & Hlv & Hvm); try done.
    rewrite Hrun.
    eapply find_rest_panics; try done.
    + by apply prefix_grows.
    + eapply Exists_impl; [exact Hex|]. intros s.
      apply clashes_copy; apply Hcp.
Qed.

(** Two clusters run "h"; only the second exposes it through a load
    balancer (or on a node port). *)
Lemma merge_into_nil_map_panics_witness :
  aggregate.Services sample.twoClusters sample.oneLoadBalancer = Panics NilMapWrite
  ∧ aggregate.GetService sample.twoClusters "h" sample.oneLoadBalancer
    = Panics NilMapWrite
  ∧ aggregate.Services sample.twoClusters sample.oneNodePort = Panics NilMapWrite
  ∧ aggregate.GetService sample.twoClusters "h" sample.oneNodePort
    = Panics NilMapWrite.
Proof.
  assert (Hreports : ∀ h s1 s2,
            h !! 1 = Some (ObjService s1) → h !! 5 = Some (ObjService s2) →
            Hostname s1 = "h" → Hostname s2 = "h" →
            reports h "h" (registries sample.twoClusters) [("c1", s1); ("c2", s2)]).
  { intros h s1 s2 H1 H5 E1 E2.
    apply (reports_sighting _ _ (sample.registry "c1" [1] "h" (Some 1)) _ _ 1);
      [discriminate | reflexivity | exact H1 | exact E1 |].
    apply (reports_sighting _ _ (sample.registry "c2" [5] "h" (Some 5)) _ _ 5);
      [discriminate | reflexivity | exact H5 | exact E2 |].
    apply reports_nil. }
  assert (Hfinds : ∀ h s1 s2,
            h !! 1 = Some (ObjService s1) → h !! 5 = Some (ObjService s2) →
            finds h "h" (registries sample.twoClusters) [("c1", s1); ("c2", s2)]).
  { intros h s1 s2 H1 H5.
    apply (finds_hit _ _ (sample.registry "c1" [1] "h" (Some 1)) _ _ 1);
      [discriminate | reflexivity | exact H1 |].
    apply (finds_hit _ _ (sample.registry "c2" [5] "h" (Some 5)) _ _ 5);
      [discriminate | reflexivity | exact H5 |].
    apply finds_nil. }
  assert (Hvalid : ∀ h, h !! 0 = Some (ObjVIPs ∅) →
            validService h (sample.service "h" "10.0.0.1" (Some 0) None None)).
  { intros h H0. split; simpl; [|done|done]. intros l [= <-]. by eexists. }
  destruct (merge_into_nil_map_panics sample.twoClusters sample.oneLoadBalancer
              "h" "c1" (sample.service "h" "10.0.0.1" (Some 0) None None)
              [("c2", sample.service "h" "10.0.0.2" (Some 2) (Some 4) None)] 0 ∅)
    as [HS1 HG1].
  { vm_compute. reflexivity. }
  { by apply Hvalid. }
  { reflexivity. }
  { reflexivity. }
  { constructor; [|constructor]. split; simpl; [|done].
    intros l [= <-]. by eexists. }
  { constructor. left. split; simpl; [discriminate | reflexivity]. }
  destruct (merge_into_nil_map_panics sample.twoClusters sample.oneNodePort
              "h" "c1" (sample.service "h" "10.0.0.1" (Some 0) None None)
              [("c2", sample.service "h" "10.0.0.2" (Some 2) None (Some 4))] 0 ∅)
    as [HS2 HG2].
  { vm_compute. reflexivity. }
  { by apply Hvalid. }
  { reflexivity. }
  { reflexivity. }
  { constructor; [|constructor]. split; simpl; [done|].
    intros l [= <-]. by eexists. }
  { constructor. right. split; simpl; [discriminate | reflexivity]. }
  split_and!.
  - apply HS1. by apply Hreports.
  - apply HG1. by apply Hfinds.
  - apply HS2. by apply Hreports.
  - apply HG2. by apply Hfinds.
Defined.

(** ** What a merged record shares with the members *)

Section Isolation.

Implicit Types (h : Heap) (q : loc).

(** Nothing a canonical record shows lies below [n]. *)
Lemma view_mutatedBelow n h h' q sq :
  canonical n h q sq → mutatedBelow n h h' → view h' q = view h q.
Proof.
  intros [Hn Hq Hv Ha Hp] [_ Hsame]. unfold view.
  rewrite (Hsame q Hn), Hq.
  assert (E1 : readVIPs h' (ClusterVIPs sq) = readVIPs h (ClusterVIPs sq)).
  { unfold readVIPs. destruct (ClusterVIPs sq) as [l|]; [|done].
    destruct (Hv l eq_refl) as [Hl _]. by rewrite (Hsame l Hl). }
  assert (E2 : readExternalAddresses h' (ClusterExternalAddresses (Attributes sq))
               = readExternalAddresses h (ClusterExternalAddresses (Attributes sq))).
  { unfold readExternalAddresses.
    destruct (ClusterExternalAddresses (Attributes sq)) as [l|]; [|done].
    destruct (Ha l eq_refl) as [Hl _]. by rewrite (Hsame l Hl). }
  assert (E3 : readExternalPorts h' (ClusterExternalPorts (Attributes sq))
               = readExternalPorts h (ClusterExternalPorts (Attributes sq))).
  { unfold readExternalPorts.
    destruct (ClusterExternalPorts (Attributes sq)) as [l|]; [|done].
    destruct (Hp l eq_refl) as [Hl _]. by rewrite (Hsame l Hl). }
  by rewrite E1, E2, E3.
Qed.

Lemma grows_unchanged h0 h : grows (length h0) h0 h → h0 `prefix_of` h.
Proof.
  intros Hg. exists (drop (length h0) h).
  rewrite <- (take_drop (length h0) h) at 1. f_equal.
  apply list_eq. intros i. destruct (decide (i < length h0)) as [Hi|Hi].
  - rewrite lookup_take_lt by done.
    destruct (lookup_lt_is_Some_2 h0 i Hi) as [o Ho].
    rewrite Ho. by eapply grows_below.
  - rewrite lookup_take_ge, lookup_ge_None_2 by lia. done.
Qed.

End Isolation.

(** After a pass over two clusters that expose "h" on node ports, the
    merged record reads the node port of each cluster out of the port map
    of that cluster's own service object: changing the member's map changes
    what the merged record shows.  [Services] shares the map of every
    cluster, [GetService] of every cluster but the first. *)
Lemma merged_record_shares_inner_maps :
  (∃ out errs h1 q,
     (1 < numK8SRegistries sample.twoNodePorts)%Z
     ∧ aggregate.Services sample.twoNodePorts sample.nodePorts = Done (out, errs) h1
     ∧ out = [q] ∧ length sample.nodePorts ≤ q
     ∧ mutatedBelow (length sample.nodePorts) h1
         (<[5 := ObjPortMap {[ 80%N := 32000%N ]}]> h1)
     ∧ externalPort h1 q "c2" 80 = Some 31080%N
     ∧ externalPort (<[5 := ObjPortMap {[ 80%N := 32000%N ]}]> h1) q "c2" 80
       = Some 32000%N
     ∧ externalPort h1 q "c1" 80 = Some 30080%N
     ∧ externalPort (<[1 := ObjPortMap {[ 80%N := 32000%N ]}]> h1) q "c1" 80
       = Some 32000%N)
  ∧ (∃ q errs h1,
       aggregate.GetService sample.twoNodePorts "h" sample.nodePorts
       = Done (Some q, errs) h1
       ∧ length sample.nodePorts ≤ q
       ∧ mutatedBelow (length sample.nodePorts) h1
           (<[5 := ObjPortMap {[ 80%N := 32000%N ]}]> h1)
       ∧ externalPort h1 q "c2" 80 = Some 31080%N
       ∧ externalPort (<[5 := ObjPortMap {[ 80%N := 32000%N ]}]> h1) q "c2" 80
         = Some 32000%N).
Proof.
  split.
  - eexists _, _, _, _. split; [by vm_compute|].
    split; [vm_compute; reflexivity|]. split; [reflexivity|].
    split; [vm_compute; lia|]. split.
    { split; [by rewrite length_insert|]. intros l Hl.
      apply list_lookup_insert_ne. simpl in Hl. lia. }
    split_and!; vm_compute; reflexivity.
  - eexists _, _, _. split; [vm_compute; reflexivity|].
    split; [vm_compute; lia|]. split.
    { split; [by rewrite length_insert|]. intros l Hl.
      apply list_lookup_insert_ne. simpl in Hl. lia. }
    split_and!; vm_compute; reflexivity.
Qed.

(** C5, as the code has it.  After a completed multi-cluster pass every
    object of the initial store is as it was; every record [Services]
    returns is either what a member without cluster id listed or a new
    service object with three new maps; and so is the record [GetService]
    returns.  Hence no change to the objects the members hold changes the
    fields of such a record, the keys of its three maps, the addresses of
    [ClusterVIPs], or which list or port map an entry of its two external
    maps refers to.  (The lists and port maps referred to may be the
    members' own.) *)
Theorem merged_records_are_new (c : Controller) (h0 : Heap) (hostname : string) :
  (1 < numK8SRegistries c)%Z →
  (∀ out errs h1,
     aggregate.Services c h0 = Done (out, errs) h1 →
     h0 `prefix_of` h1
     ∧ ∀ q, q ∈ out →
         listedUnscoped (registries c) q
         ∨ (length h0 ≤ q
            ∧ (∃ sq, canonical (length h0) h1 q sq)
            ∧ ∀ h', mutatedBelow (length h0) h1 h' → view h' q = view h1 q))
  ∧ (∀ q errs h1,
       aggregate.GetService c hostname h0 = Done (Some q, errs) h1 →
       h0 `prefix_of` h1
       ∧ (foundUnscoped (registries c) hostname q
          ∨ (length h0 ≤ q
             ∧ (∃ sq, canonical (length h0) h1 q sq)
             ∧ ∀ h', mutatedBelow (length h0) h1 h' → view h' q = view h1 q))).
Proof.
  intros Hcount. split.
  - intros out errs h1. unfold aggregate.Services, GetRegistries.
    destruct (decide _) as [|_]; [lia|].
    intros (st & h' & Hrun & [[= -> ->] ->]%ret_Done)%bind_Done.
    apply (foldM_mergeRegistry_Done (registries c) h0) in Hrun as [Hg Hc Hs];
      [|done|].
    + split; [by apply grows_unchanged|].
      intros q Hq. destruct (Hs q Hq) as [?|[host Hhost]]; [by left|]. right.
      destruct (Hc host q Hhost) as [sq Hsq].
      split; [apply Hsq|]. split; [by exists sq|].
      intros h'' Hmut. by eapply view_mutatedBelow.
    + split; simpl; [apply grows_refl | by intros ? ? | by intros ? ?%elem_of_nil].
  - intros q errs h1. unfold aggregate.GetService, GetRegistries.
    destruct (decide _) as [|_]; [lia|]. intros Hrun.
    apply (getServiceMerged_Done h0 hostname (registries c)) in Hrun as [Hg Hres];
      [|done|apply grows_refl|done].
    split; [by apply grows_unchanged|].
    destruct (Hres q eq_refl) as [?|[sq Hsq]]; [by left|]. right.
    split; [apply Hsq|]. split; [by exists sq|].
    intros h'' Hmut. by eapply view_mutatedBelow.
Qed.

(** The record [Services] returns for "h" on the three sample members is
    new, and shows the same whatever happens to the members' objects. *)
Lemma merged_records_are_new_witness :
  ∃ h1,
    aggregate.Services sample.threeMembers sample.twoLoadBalancers
    = Done ([8; 12], None) h1
    ∧ sample.twoLoadBalancers `prefix_of` h1
    ∧ ∀ h', mutatedBelow 9 h1 h' → view h' 12 = view h1 12.
Proof.
  eexists. split; [vm_compute; reflexivity|].
  destruct (merged_records_are_new sample.threeMembers sample.twoLoadBalancers "h")
    as [HS _]; [vm_compute; reflexivity|].
  edestruct HS as [Hpre Hout]; [vm_compute; reflexivity|].
  split; [exact Hpre|].
  destruct (Hout 12) as [(r & Hr & Hc & Hin)|(_ & _ & Hiso)].
  - apply list_elem_of_In. simpl. auto.
  - exfalso. apply list_elem_of_In in Hr. simpl in Hr.
    destruct Hr as [<-|[<-|[<-|[]]]]; try discriminate Hc.
    apply list_elem_of_In in Hin. simpl in Hin. destruct Hin as [Hin|[]].
    discriminate Hin.
  - exact Hiso.
Defined.

(** ** The statements on sample members *)


(** Three members of which the second refuses the handler. *)
Lemma handler_registration_fails_fast_witness :
  aggregate.AppendServiceHandler
    (sample.controller 3 [ sample.registry "c1" [] "h" None;
                           sample.failing "c2" "refused";
                           sample.registry "c3" [] "h" None ]) "onService"
  = ([(0, "onService"); (1, "onService")], Some (errorString "refused")).
Proof.
  destruct (handler_registration_fails_fast
              (sample.controller 3 [ sample.registry "c1" [] "h" None;
                                     sample.failing "c2" "refused";
                                     sample.registry "c3" [] "h" None ])
              "onService")
    as (H & _).
  apply (H (sample.registry "c1" [] "h" None) (sample.failing "c2" "refused")
           (sample.registry "c3" [] "h" None)); reflexivity.
Defined.

(** A failing member and one that has an instance. *)
Lemma InstancesByPort_masks_errors_witness :
  let inst :=
    {| ServiceInstance.Service := 1;
       ServiceInstance.Endpoint :=
         {| IstioEndpoint.Address := "10.1.0.7";
            IstioEndpoint.Locality :=
              {| Locality.Label := "region/zone"; Locality.ClusterID := "c1" |} |} |} in
  let serving :=
    {| Cluster := "c1"; Provider := "Kubernetes";
       serviceregistry.Services := ([1], None);
       serviceregistry.GetService := λ _, (Some 1, None);
       serviceregistry.InstancesByPort := λ _ _ _, ([inst], None);
       serviceregistry.GetProxyServiceInstances := λ _, ([inst], None);
       serviceregistry.AppendServiceHandler := λ _, None;
       serviceregistry.AppendInstanceHandler := λ _, None |} in
  aggregate.InstancesByPort
    (sample.controller 1 [ sample.failing "" "down"; serving ]) 1 80%Z []
  = ([inst], None).
Proof.
  intros inst serving.
  destruct (InstancesByPort_masks_errors
              (sample.controller 1 [ sample.failing "" "down"; serving ])
              1 80%Z [])
    as (_ & _ & H).
  apply (H (sample.failing "" "down") serving [inst]).
  - discriminate.
  - reflexivity.
  - discriminate.
  - left. reflexivity.
Defined.

(** [AddRegistry] on the new controller and a registry of cluster "c1": the
    call is stuck with one cluster-scoped member and a count of zero.
    [DeleteRegistry] of a member is stuck likewise, the member removed and
    the count as it was; of a cluster id no member has, it returns. *)
Lemma membership_change_waits_on_own_lock_witness :
  AddRegistry NewController sync.zero (sample.registry "c1" [1] "h" (Some 1))
  = Waits (sample.controller 0 [sample.registry "c1" [1] "h" (Some 1)])
      heldByCaller
  ∧ clusterScopedCount [sample.registry "c1" [1] "h" (Some 1)] = 1%Z
  ∧ DeleteRegistry sample.twoClusters sync.zero "c2"
    = Waits (sample.controller 2 [sample.registry "c1" [1] "h" (Some 1)])
        heldByCaller
  ∧ DeleteRegistry sample.twoClusters sync.zero "c9"
    = Returns tt sample.twoClusters sync.zero.
Proof.
  destruct (membership_change_waits_on_own_lock NewController
              (sample.registry "c1" [1] "h" (Some 1)) "c1")
    as (Hadd & Hn & _ & _).
  destruct (membership_change_waits_on_own_lock sample.twoClusters
              (sample.registry "c1" [1] "h" (Some 1)) "c2")
    as (_ & _ & _ & Hdel).
  destruct (membership_change_waits_on_own_lock sample.twoClusters
              (sample.registry "c1" [1] "h" (Some 1)) "c9")
    as (_ & _ & _ & Hno).
  split_and!.
  - exact Hadd.
  - exact Hn.
  - exact Hdel.
  - exact Hno.
Defined.
